(** * Scribe-Data, [scribe_data/wiktionary/parse_dump.py]

    A shallow embedding of the lexeme-dump pipeline: the [LexemeProcessor]
    class (language registry, per-line parsing, the translation and the
    total-count aggregators, the dump reader with its batching, and the
    save / load / lookup surface of the word index) and the [parse_dump]
    driver, followed by the properties that the written specification
    states about them.

    The program is dynamically typed, so decoded JSON is modelled by one
    type of Python values with the run-time failures ([AttributeError],
    [TypeError], [KeyError]) written out.  Mutable state is threaded
    explicitly: a method takes the processor and the world (file system,
    standard output, error log) and returns the new ones. *)

From stdpp Require Import gmap strings list sorting pretty.
From Stdlib Require Import Ascii.

Set Warnings "-register-all".

(** ** Python values *)

Module Py.

(** A JSON number or boolean: [bool], [int] or [float].  [Float m e] is
    the float [m * 2^e]. *)
Inductive number :=
| Bool (b : bool)
| Int (n : Z)
| Float (m e : Z).

(** What can be the key of a dictionary: [None], a string or a number. *)
Inductive key :=
| KNone
| KStr (s : string)
| KNum (n : number).

Coercion KStr : string >-> key.

(** The values that flow through the program: [None], numbers and
    booleans, [str], [list] and [dict].  A dictionary is kept as its items
    in insertion order (the order [.items()], [.values()],
    [next(iter(...))] and [json.dump] follow).  [factory] tells a
    [defaultdict] from a plain [dict]: [0] is a plain dictionary, [S n] is
    a [defaultdict] whose factory builds an empty dictionary of factory
    [n].  Hence [defaultdict(dict)] is [PDict 1 []],
    [defaultdict(lambda: defaultdict(dict))] is [PDict 2 []], and the
    [word_index] of a new processor is [PDict 3 []]. *)
Inductive pyval :=
| PNone
| PNum (n : number)
| PStr (s : string)
| PList (xs : list pyval)
| PDict (factory : nat) (items : list (key * pyval)).

Abbreviation dict := (list (key * pyval)).

(** Exceptions the program can meet. *)
Inductive exn :=
| AttributeError
| TypeError
| KeyError
| JSONDecodeError
| FileNotFoundError
| FileExistsError
| NotADirectoryError
| IsADirectoryError
| StopIteration
| StreamError.   (* OSError / EOFError / UnicodeDecodeError of a bad stream *)

Inductive result (A : Type) :=
| Ok (a : A)
| Raise (e : exn).
Arguments Ok {A} a.
Arguments Raise {A} e.

#[global] Instance result_ret : MRet result := λ A a, Ok a.
#[global] Instance result_fmap : FMap result := λ A B f r,
  match r with
  | Ok a => Ok (f a)
  | Raise e => Raise e
  end.
#[global] Instance result_bind : MBind result := λ A B k r,
  match r with
  | Ok a => k a
  | Raise e => Raise e
  end.

(** *** Keys

    Two keys are the same key of a dictionary when they are equal ([==])
    and so hash alike: a string equals only itself, and numbers are
    compared by value, so that [True], [1] and [1.0] are one key.  The
    class of a key is the string, or the value of the number as
    [m * 2^e] with [m] odd (or [0 * 2^0]). *)
Inductive hash_class :=
| HNone
| HStr (s : string)
| HNum (m e : Z).

#[global] Instance hash_class_eq_dec : EqDecision hash_class.
Proof. solve_decision. Defined.

Fixpoint odd_part (p : positive) : positive * Z :=
  match p with
  | xO q => let '(r, k) := odd_part q in (r, Z.succ k)
  | _ => (p, 0%Z)
  end.

Definition dyadic (m e : Z) : hash_class :=
  match m with
  | Z0 => HNum 0 0
  | Zpos p => let '(r, k) := odd_part p in HNum (Zpos r) (e + k)
  | Zneg p => let '(r, k) := odd_part p in HNum (Zneg r) (e + k)
  end.

Definition number_class (n : number) : hash_class :=
  match n with
  | Bool b => dyadic (if b then 1 else 0) 0
  | Int n => dyadic n 0
  | Float m e => dyadic m e
  end.

Definition key_class (k : key) : hash_class :=
  match k with
  | KNone => HNone
  | KStr s => HStr s
  | KNum n => number_class n
  end.

Definition same_key (k k' : key) : bool :=
  bool_decide (key_class k = key_class k').

(** The key under which a value is stored in a dictionary; [None] when
    the value is unhashable (a list or a dictionary). *)
Definition hashable (v : pyval) : option key :=
  match v with
  | PNone => Some KNone
  | PNum n => Some (KNum n)
  | PStr s => Some (KStr s)
  | PList _ | PDict _ _ => None
  end.

(** A key as a value, as iterating over a dictionary gives it. *)
Definition key_value (k : key) : pyval :=
  match k with
  | KNone => PNone
  | KStr s => PStr s
  | KNum n => PNum n
  end.

(** [d.get(k)] / [k in d] / [d[k] = v] on the items of a dictionary.  An
    assignment to a key that is there keeps the key object and replaces
    the value. *)
Fixpoint dict_get {V} (k : key) (d : list (key * V)) : option V :=
  match d with
  | [] => None
  | (k', v) :: d' => if same_key k k' then Some v else dict_get k d'
  end.

Fixpoint dict_set {V} (k : key) (v : V) (d : list (key * V))
  : list (key * V) :=
  match d with
  | [] => [(k, v)]
  | (k', v') :: d' =>
      if same_key k k' then (k', v) :: d' else (k', v') :: dict_set k v d'
  end.

Definition dict_keys {K V} (d : list (K * V)) : list K := d.*1.
Definition dict_values {K V} (d : list (K * V)) : list V := d.*2.

(** The classes of the keys of a dictionary. *)
Definition key_classes {V} (d : list (key * V)) : list hash_class :=
  key_class <$> dict_keys d.

(** [d.update(other)]: the items of [other] are assigned in order. *)
Definition dict_update {V} (d other : list (key * V)) : list (key * V) :=
  foldl (λ acc kv, dict_set kv.1 kv.2 acc) d other.

(** The elements of [set(keys)], each as it was first met. *)
Fixpoint set_of (keys : list key) : list key :=
  match keys with
  | [] => []
  | k :: rest => k :: List.filter (λ k', negb (same_key k' k)) (set_of rest)
  end.

(** Truth value of an object ([not x] is its negation). *)
Definition truthy (v : pyval) : bool :=
  match v with
  | PNone => false
  | PNum (Bool b) => b
  | PNum (Int n) => negb (bool_decide (n = 0%Z))
  | PNum (Float m _) => negb (bool_decide (m = 0%Z))
  | PStr s => negb (bool_decide (s = ""))
  | PList xs => negb (bool_decide (xs = []))
  | PDict _ items => negb (bool_decide (items = []))
  end.

(** [obj.get(key, default)]: only dictionaries have [get]. *)
Definition get (obj : pyval) (k : key) (dflt : pyval) : result pyval :=
  match obj with
  | PDict _ items => Ok (default dflt (dict_get k items))
  | _ => Raise AttributeError
  end.

(** [obj.items()] and [obj.values()]. *)
Definition items_of (obj : pyval) : result dict :=
  match obj with
  | PDict _ items => Ok items
  | _ => Raise AttributeError
  end.

Definition values_of (obj : pyval) : result (list pyval) :=
  match obj with
  | PDict _ items => Ok (dict_values items)
  | _ => Raise AttributeError
  end.

(** [obj[key]] read on an object that is not mutated afterwards: a missing
    key of a plain dictionary is a [KeyError]; strings, lists, numbers and
    [None] cannot be subscripted by a string. *)
Definition getitem (obj : pyval) (key : string) : result pyval :=
  match obj with
  | PDict f items =>
      match dict_get key items, f with
      | Some v, _ => Ok v
      | None, 0 => Raise KeyError
      | None, S f' => Ok (PDict f' [])
      end
  | _ => Raise TypeError
  end.

(** [for x in obj]: a list gives its elements, a dictionary its keys, a
    string its characters; [None] and numbers are not iterable. *)
Definition chars (s : string) : list pyval :=
  (λ c, PStr (String c EmptyString)) <$> String.list_ascii_of_string s.

Definition iterate (obj : pyval) : result (list pyval) :=
  match obj with
  | PList xs => Ok xs
  | PDict _ items => Ok (key_value <$> dict_keys items)
  | PStr s => Ok (chars s)
  | PNone | PNum _ => Raise TypeError
  end.

(** [x in values] where [values] are strings: compared with [==], nothing
    is hashed, and only a string equals a string. *)
Definition among (x : pyval) (values : list string) : bool :=
  match x with
  | PStr s => bool_decide (s ∈ values)
  | _ => false
  end.

(** Reading [obj[key]] on the way to an assignment.  The child is handed to
    [body], which mutates it in place; a [defaultdict] creates a missing
    child first, and keeps it even when [body] raises. *)
Definition in_item (obj : pyval) (key : string)
    (body : pyval → result unit * pyval) : result unit * pyval :=
  match obj with
  | PDict f items =>
      match dict_get key items, f with
      | Some child, _ =>
          let '(r, child') := body child in
          (r, PDict f (dict_set key child' items))
      | None, S f' =>
          let '(r, child') := body (PDict f' []) in
          (r, PDict f (dict_set key child' items))
      | None, 0 => (Raise KeyError, obj)
      end
  | _ => (Raise TypeError, obj)
  end.

(** [obj[key] = v]: [key] must be hashable and [obj] a dictionary. *)
Definition set_item (obj key v : pyval) : result unit * pyval :=
  match obj, hashable key with
  | PDict f items, Some k => (Ok tt, PDict f (dict_set k v items))
  | _, _ => (Raise TypeError, obj)
  end.

(** The contents of a value, a [defaultdict] being a [dict]: equal
    contents are equal for [==]. *)
Fixpoint erase (v : pyval) : pyval :=
  match v with
  | PList xs => PList (erase <$> xs)
  | PDict _ items => PDict 0 ((λ kv, (kv.1, erase kv.2)) <$> items)
  | _ => v
  end.

Definition py_eq (a b : pyval) : Prop := erase a = erase b.

(** [a == b], for dictionaries whose keys are distinct: numbers by value,
    lists element by element, dictionaries key by key whatever the order
    of their items. *)
Fixpoint py_equal (a b : pyval) : bool :=
  match a, b with
  | PNone, PNone => true
  | PNum x, PNum y => bool_decide (number_class x = number_class y)
  | PStr s, PStr t => bool_decide (s = t)
  | PList xs, PList ys =>
      (fix each (xs ys : list pyval) : bool :=
         match xs, ys with
         | [], [] => true
         | x :: xs, y :: ys => py_equal x y && each xs ys
         | _, _ => false
         end) xs ys
  | PDict _ items, PDict _ others =>
      bool_decide (length items = length others)
      && (fix each (items : dict) : bool :=
            match items with
            | [] => true
            | (k, v) :: items =>
                match dict_get k others with
                | Some v' => py_equal v v'
                | None => false
                end && each items
            end) items
  | _, _ => false
  end.

(** Representation invariant of a dictionary: its keys are distinct. *)
Fixpoint well_formed (v : pyval) : bool :=
  match v with
  | PList xs => forallb well_formed xs
  | PDict _ items =>
      bool_decide (NoDup (key_classes items))
      && forallb (λ kv, well_formed kv.2) items
  | _ => true
  end.

(** Every key of every dictionary in the value is a string, as in a
    decoded JSON document. *)
Definition is_str (k : key) : bool :=
  match k with
  | KStr _ => true
  | _ => false
  end.

Fixpoint str_keys (v : pyval) : bool :=
  match v with
  | PList xs => forallb str_keys xs
  | PDict _ items => forallb (λ kv, is_str kv.1 && str_keys kv.2) items
  | _ => true
  end.

(** [needle in haystack] on strings. *)
Fixpoint substring_of (needle haystack : string) : bool :=
  String.prefix needle haystack
  || match haystack with
     | EmptyString => false
     | String _ rest => substring_of needle rest
     end.

(** [s.rstrip(",")]: every trailing comma goes. *)
Fixpoint rstrip_comma (s : string) : string :=
  match s with
  | EmptyString => EmptyString
  | String c rest =>
      match rstrip_comma rest with
      | EmptyString => if decide (c = ","%char) then EmptyString
                       else String c EmptyString
      | r => String c r
      end
  end.

End Py.
Export Py.


(** ** What the program runs on *)

(** The library functions the module calls.  They are left open, with the
    facts about them that the proofs use: a decoded object is a Python
    dictionary (distinct keys) whose keys are strings, and iterating over
    a [set] visits each of its elements once, in an order the program does
    not control. *)
Class Library := {
  (** [orjson.loads]: [None] stands for [JSONDecodeError]. *)
  orjson_loads : string → option pyval;
  orjson_loads_dict : ∀ s v, orjson_loads s = Some v → well_formed v = true;
  orjson_loads_keys : ∀ s v, orjson_loads s = Some v → str_keys v = true;
  (** [str.lower] and [str.strip]. *)
  str_lower : string → string;
  str_strip : string → string;
  (** [repr] of the float [m * 2^e], which [json.dump] writes. *)
  float_repr : Z → Z → string;
  (** The iteration order of the [set] holding the given elements. *)
  set_order : list key → list key;
  set_order_perm : ∀ l, set_order l ≡ₚ l;
}.

(** The two tables of [scribe_data.utils], in key order.  An entry of
    [language_metadata] has an ["iso"] code, or a table of sub-languages
    each with its own code, or both. *)
Record sub_language := { sub_iso : option string }.

Record language_data := {
  iso : option string;
  sub_languages : option (list (string * sub_language));
}.

Class Metadata := {
  language_metadata : list (string * language_data);
  (** category name ↦ category code (QID) *)
  data_type_metadata : list (string * string);
}.

(** ** Files, standard output and the error log *)

Module Fs.

(** A path is the list of its components below the working directory. *)
Abbreviation path := (list string).

(** [p / segment] of [pathlib] for a segment without separator: an empty
    segment or ["."] adds nothing. *)
Definition join (p : path) (segment : string) : path :=
  if bool_decide (segment = "" ∨ segment = ".") then p else p ++ [segment].

(** [p.parent] and [p.name]. *)
Definition parent (p : path) : path := removelast p.
Definition name (p : path) : string := List.last p "".

(** What a file holds: the lines of a bz2-compressed text ([truncated]
    when reading past them fails), a JSON document, or anything else. *)
Inductive content :=
| DumpFile (lines : list string) (truncated : bool)
| JsonFile (doc : pyval)
| OtherFile.

Inductive message :=
| MsgLineError (e : exn)
| MsgFileNotFound (p : path)
| MsgFileError (e : exn)
| MsgProcessed (entries : nat)
| MsgTally (counts : gmap string (gmap string nat))
| MsgUnknownIso (code : string)
| MsgSavingLanguage (language : string) (p : path)
| MsgSavingComplete (p : path)
| MsgLoading (p : path)
| MsgIndexNotFound (p : path)
| MsgLoadError (e : exn)
| MsgProcessingAll
| MsgProcessingFor (language : option string)
| MsgWillSave (p : path)
| MsgProcessingFile
| MsgFound (words : nat).

Record world := mkWorld {
  files : gmap path content;
  dirs : gset path;
  stdout : list message;     (* what [print] wrote, oldest first *)
  errlog : list message;     (* what [logging.error] wrote, oldest first *)
}.

Definition print (w : world) (m : message) : world :=
  mkWorld (files w) (dirs w) (stdout w ++ [m]) (errlog w).

Definition log_error (w : world) (m : message) : world :=
  mkWorld (files w) (dirs w) (stdout w) (errlog w ++ [m]).

(** The working directory always exists. *)
Definition is_dir (w : world) (p : path) : bool :=
  bool_decide (p = [] ∨ p ∈ dirs w).

Definition is_file (w : world) (p : path) : bool :=
  bool_decide (is_Some (files w !! p)).

(** The non-empty proper prefixes of a path, shortest first. *)
Definition ancestors (p : path) : list path :=
  (λ n, take n p) <$> seq 1 (length p - 1).

(** Some component above [p] is a regular file. *)
Definition blocked (w : world) (p : path) : bool :=
  existsb (is_file w) (ancestors p).

(** [Path(p).stat()]. *)
Definition stat (w : world) (p : path) : result unit :=
  if blocked w p then Raise NotADirectoryError
  else if is_dir w p || is_file w p then Ok tt
  else Raise FileNotFoundError.

(** [Path(p).mkdir(parents=True, exist_ok=True)]: every missing directory
    down to [p] is created, unless a regular file is in the way. *)
Definition mkdir_parents (w : world) (p : path) : result unit * world :=
  if blocked w p then (Raise NotADirectoryError, w)
  else if is_file w p then (Raise FileExistsError, w)
  else (Ok tt,
        mkWorld (files w) (dirs w ∪ list_to_set (ancestors p) ∪ {[p]})
                (stdout w) (errlog w)).

(** [open(p, "w")] followed by writing [c]. *)
Definition write_file (w : world) (p : path) (c : content)
  : result unit * world :=
  if blocked w p then (Raise NotADirectoryError, w)
  else if is_dir w p then (Raise IsADirectoryError, w)
  else if negb (is_dir w (parent p)) then (Raise FileNotFoundError, w)
  else (Ok tt, mkWorld (<[p := c]> (files w)) (dirs w) (stdout w) (errlog w)).

(** [open(p, "r")]. *)
Definition read_file (w : world) (p : path) : result content :=
  if blocked w p then Raise NotADirectoryError
  else if is_dir w p then Raise IsADirectoryError
  else match files w !! p with
       | Some c => Ok c
       | None => Raise FileNotFoundError
       end.

(** [bz2.open(p, "rt")] and the reading of the whole stream: the lines it
    yields and whether the read after the last of them fails. *)
Definition read_dump (w : world) (p : path) : result (list string * bool) :=
  c ← read_file w p;
  match c with
  | DumpFile lines truncated => Ok (lines, truncated)
  | _ => Raise StreamError
  end.

End Fs.
Export Fs.

(** ** JSON files *)

Section Json.
Context `{Library}.

(** The text that [json.dump] writes for a key: a key that is not a
    string is written as the JSON text of its value. *)
Definition key_text (k : key) : string :=
  match k with
  | KNone => "null"
  | KStr s => s
  | KNum (Bool true) => "true"
  | KNum (Bool false) => "false"
  | KNum (Int n) => pretty n
  | KNum (Float m e) => float_repr m e
  end.

(** The document that a value is once written: plain dictionaries with
    the texts of the keys.  When two keys have the same text the document
    has the member twice and a reader keeps the later value. *)
Fixpoint json_of (v : pyval) : pyval :=
  match v with
  | PList xs => PList (json_of <$> xs)
  | PDict _ items =>
      PDict 0 (foldl (λ doc kv, dict_set (KStr (key_text kv.1)) (json_of kv.2) doc)
                 [] items)
  | _ => v
  end.

(** The members of the document of a dictionary, added to [doc]. *)
Definition json_items (doc items : dict) : dict :=
  foldl (λ doc kv, dict_set (KStr (key_text kv.1)) (json_of kv.2) doc)
    doc items.

(** What [json.dump] leaves in the file, and [json.load] of an open
    file. *)
Definition json_dump (v : pyval) : content := JsonFile (json_of v).

Definition json_load (c : content) : result pyval :=
  match c with
  | JsonFile doc => Ok (json_of doc)
  | _ => Raise JSONDecodeError
  end.

End Json.

(** ** class LexemeProcessor *)

Record LexemeProcessor := mkProcessor {
  word_index : dict;                 (* the items of the outer defaultdict *)
  processed_entries : nat;           (* stats["processed_entries"] *)
  unique_words : nat;                (* stats["unique_words"] *)
  target_iso : option string;
  parse_type : option string;
  lexical_category_counts : gmap string (gmap string nat);
  iso_to_name : gmap string string;
}.

Definition set_word_index (self : LexemeProcessor) (idx : dict) :=
  mkProcessor idx (processed_entries self) (unique_words self)
    (target_iso self) (parse_type self) (lexical_category_counts self)
    (iso_to_name self).

Definition set_counts (self : LexemeProcessor)
    (counts : gmap string (gmap string nat)) :=
  mkProcessor (word_index self) (processed_entries self) (unique_words self)
    (target_iso self) (parse_type self) counts (iso_to_name self).

Definition set_processed_entries (self : LexemeProcessor) (n : nat) :=
  mkProcessor (word_index self) n (unique_words self)
    (target_iso self) (parse_type self) (lexical_category_counts self)
    (iso_to_name self).

Definition set_unique_words (self : LexemeProcessor) (n : nat) :=
  mkProcessor (word_index self) (processed_entries self) n
    (target_iso self) (parse_type self) (lexical_category_counts self)
    (iso_to_name self).

(** [not s] for an optional string: [None] and [""] are false. *)
Definition unset (s : option string) : bool :=
  match s with
  | None => true
  | Some s => bool_decide (s = "")
  end.

(** [str(x)] inside an f-string. *)
Definition fmt (s : option string) : string := default "None" s.

(** [v in self.iso_to_name], keeping the code when the test holds.  The
    key is hashed first, so a list or a dictionary raises; [None] and
    numbers hash and are absent, the keys of the registry being strings. *)
Definition known_code (reg : gmap string string) (v : pyval)
  : result (option string) :=
  match v with
  | PStr s => Ok (if bool_decide (is_Some (reg !! s)) then Some s else None)
  | PNone | PNum _ => Ok None
  | PList _ | PDict _ _ => Raise TypeError
  end.

(** [k in self.iso_to_name] for the key of a dictionary. *)
Definition in_registry (reg : gmap string string) (k : key) : bool :=
  match k with
  | KStr s => bool_decide (is_Some (reg !! s))
  | _ => false
  end.

(** [counts[lang][name] += 1] on a [defaultdict(Counter)]. *)
Definition increment (counts : gmap string (gmap string nat))
    (lang name : string) : gmap string (gmap string nat) :=
  let row := default ∅ (counts !! lang) in
  <[lang := <[name := S (default 0 (row !! name))]> row]> counts.

Definition tally (counts : gmap string (gmap string nat))
    (lang name : string) : nat :=
  default 0 (default ∅ (counts !! lang) !! name).

(** The structural lines of an array-formatted dump. *)
Definition structural (stripped_line : string) : bool :=
  bool_decide (stripped_line ∈ ["]"; "["; ","; ""]).

Section Program.
Context `{Library} `{Metadata}.

(** *** __init__: the language registry *)

(** The loop over [language_metadata.items()].  [data["iso"]] is a
    subscript, so a target entry without an ["iso"] key is a [KeyError]. *)
Fixpoint build_registry (target : option string)
    (table : list (string * language_data)) (reg : gmap string string)
  : result (gmap string string) :=
  match table with
  | [] => Ok reg
  | (lang_name, data) :: rest =>
      if bool_decide (Some lang_name = target) then
        match iso data with
        | Some code => Ok (<[code := lang_name]> reg)      (* break *)
        | None => Raise KeyError
        end
      else
        build_registry target rest
          (if unset target then
             match iso data, sub_languages data with
             | Some code, _ => <[code := lang_name]> reg
             | None, Some subs =>
                 foldl (λ r sub, match sub_iso sub.2 with
                                 | Some code => <[code := lang_name]> r
                                 | None => r
                                 end) reg subs
             | None, None => reg
             end
           else reg)
  end.

Definition LexemeProcessor_init (target_iso parse_type : option string)
  : result LexemeProcessor :=
  reg ← build_registry target_iso language_metadata ∅;
  Ok (mkProcessor [] 0 0 target_iso parse_type ∅ reg).

(** *** _process_lexeme_translations *)

(** The dictionary comprehension over one sense's [glosses.items()]. *)
Fixpoint known_glosses (reg : gmap string string) (glosses acc : dict)
  : result dict :=
  match glosses with
  | [] => Ok acc
  | (lang_code, gloss) :: rest =>
      if in_registry reg lang_code then
        value ← getitem gloss "value";
        known_glosses reg rest (dict_set lang_code value acc)
      else known_glosses reg rest acc
  end.

(** The loop over the senses, [translations.update(...)] for each. *)
Fixpoint collect_translations (reg : gmap string string)
    (senses : list pyval) (translations : dict) : result dict :=
  match senses with
  | [] => Ok translations
  | sense :: rest =>
      glosses ← get sense "glosses" (PDict 0 []);
      pairs ← items_of glosses;
      new ← known_glosses reg pairs [];
      collect_translations reg rest (dict_update translations new)
  end.

(** Everything up to the assignment: [None] where the method returns
    [{}], otherwise the word, its language, the category and the
    translations. *)
Definition extract_translations (reg : gmap string string) (lexeme : pyval)
  : result (option (string * string * pyval * dict)) :=
  lemmas ← get lexeme "lemmas" (PDict 0 []);
  datatype ← get lexeme "lexicalCategory" PNone;
  senses ← get lexeme "senses" (PList []);
  if negb (truthy lemmas) || negb (truthy datatype) then Ok None else
  pairs ← items_of lemmas;
  match pairs with
  | [] => Raise StopIteration
  | (first_lang, first_lemma) :: _ =>
      value ← get first_lemma "value" (PStr "");
      word ← match value with
             | PStr s => Ok (str_lower s)
             | _ => Raise AttributeError
             end;
      word_lang ← get first_lemma "language" (PStr "");
      if bool_decide (word = "") then Ok None else
      code ← known_code reg word_lang;
      match code with
      | None => Ok None
      | Some lang =>
          each ← iterate senses;
          translations ← collect_translations reg each [];
          if bool_decide (translations = []) then Ok None
          else Ok (Some (word, lang, datatype, translations))
      end
  end.

(** [self.word_index[word][word_lang][datatype] = translations].  The two
    reads create the missing levels before the key is hashed. *)
Definition index_assign (idx : dict) (word lang : string) (datatype : pyval)
    (translations : pyval) : result unit * dict :=
  let '(r, by_lang) :=
    in_item (default (PDict 2 []) (dict_get word idx)) lang
      (λ by_cat, set_item by_cat datatype translations) in
  (r, dict_set word by_lang idx).

Definition _process_lexeme_translations (self : LexemeProcessor)
    (lexeme : pyval) : result pyval * LexemeProcessor :=
  match extract_translations (iso_to_name self) lexeme with
  | Raise e => (Raise e, self)
  | Ok None => (Ok (PDict 0 []), self)
  | Ok (Some (word, lang, datatype, translations)) =>
      let '(r, idx) :=
        index_assign (word_index self) word lang datatype
          (PDict 0 translations) in
      (_ ← r;
       Ok (PDict 0 [(KStr word, PDict 0 [(KStr lang,
             PDict 0 [(default (KStr "") (hashable datatype),
                       PDict 0 translations)])])]),
       set_word_index self idx)
  end.

(** *** _process_lexeme_total *)

(** [next((key for key, qid in data_type_metadata.items()
           if qid == lexicalCategory), None)]. *)
Definition category_name_of (lexicalCategory : pyval) : option string :=
  match lexicalCategory with
  | PStr code =>
      (λ kv : string * string, kv.1)
        <$> List.find (λ kv, bool_decide (kv.2 = code)) data_type_metadata
  | _ => None
  end.

(** The loop over [lemmas.values()], left at the first lemma whose
    language is in the registry. *)
Fixpoint tally_lemmas (self : LexemeProcessor) (lexicalCategory : pyval)
    (lemmas : list pyval) : result LexemeProcessor :=
  match lemmas with
  | [] => Ok self
  | lemma :: rest =>
      lang ← get lemma "language" PNone;
      code ← known_code (iso_to_name self) lang;
      match code with
      | Some lang =>
          match category_name_of lexicalCategory with
          | Some category_name =>
              if bool_decide (category_name = "") then Ok self
              else Ok (set_counts self
                         (increment (lexical_category_counts self)
                            lang category_name))
          | None => Ok self
          end                                               (* break *)
      | None => tally_lemmas self lexicalCategory rest
      end
  end.

Definition _process_lexeme_total (self : LexemeProcessor) (lexeme : pyval)
  : result pyval * LexemeProcessor :=
  match
    lexicalCategory ← get lexeme "lexicalCategory" PNone;
    if negb (truthy lexicalCategory)
       || negb (among lexicalCategory (dict_values data_type_metadata))
    then Ok None
    else
      lemmas ← get lexeme "lemmas" (PDict 0 []);
      each ← values_of lemmas;
      Some <$> tally_lemmas self lexicalCategory each
  with
  | Raise e => (Raise e, self)
  | Ok None => (Ok (PDict 0 []), self)
  | Ok (Some self') => (Ok PNone, self')
  end.

End Program.

Section Pipeline.
Context `{Library} `{Metadata}.

(** *** process_lines *)

(** Whatever is raised while the line is decoded or aggregated is logged
    and turned into [{}]; what was already written to the processor
    stays.  With any other [parse_type] the method falls off its end and
    returns [None]. *)
Definition process_lines (self : LexemeProcessor) (w : world) (line : string)
  : pyval * (LexemeProcessor * world) :=
  match orjson_loads (rstrip_comma (str_strip line)) with
  | None => (PDict 0 [], (self, log_error w (MsgLineError JSONDecodeError)))
  | Some lexeme =>
      if bool_decide (parse_type self = Some "translations") then
        match _process_lexeme_translations self lexeme with
        | (Ok v, self) => (v, (self, w))
        | (Raise e, self) => (PDict 0 [], (self, log_error w (MsgLineError e)))
        end
      else if bool_decide (parse_type self = Some "total") then
        match _process_lexeme_total self lexeme with
        | (Ok v, self) => (v, (self, w))
        | (Raise e, self) => (PDict 0 [], (self, log_error w (MsgLineError e)))
        end
      else (PNone, (self, w))
  end.

(** *** _process_batch and process_file *)

Definition _process_batch (self : LexemeProcessor) (w : world)
    (batch : list string) : LexemeProcessor * world :=
  foldl (λ st line, (process_lines st.1 st.2 line).2) (self, w) batch.

(** The [for line in bzfile] loop; it returns the batch still pending. *)
Fixpoint read_loop (self : LexemeProcessor) (w : world) (batch : list string)
    (lines : list string) (batch_size : Z)
  : LexemeProcessor * world * list string :=
  match lines with
  | [] => (self, w, batch)
  | line :: rest =>
      if structural (str_strip line) then
        read_loop self w batch rest batch_size                 (* continue *)
      else
        let batch := batch ++ [line] in
        let '(self, w, batch) :=
          if bool_decide (batch_size ≤ Z.of_nat (length batch))%Z then
            let '(self, w) := _process_batch self w batch in (self, w, [])
          else (self, w, batch) in
        read_loop (set_processed_entries self (S (processed_entries self)))
          w batch rest batch_size
  end.

Definition report_file_error (w : world) (file_path : path) (e : exn) : world :=
  match e with
  | FileNotFoundError =>
      print (log_error w (MsgFileNotFound file_path)) (MsgFileNotFound file_path)
  | _ => print (log_error w (MsgFileError e)) (MsgFileError e)
  end.

(** Elapsed time is not modelled.  A failure of the stream after the last
    line it yields leaves the method through [except Exception], with the
    pending batch unprocessed. *)
Definition process_file (self : LexemeProcessor) (w : world)
    (file_path : path) (batch_size : Z) : LexemeProcessor * world :=
  match _ ← stat w file_path; read_dump w file_path with
  | Raise e => (self, report_file_error w file_path e)
  | Ok ([], true) => (self, report_file_error w file_path StreamError)
  | Ok (lines, truncated) =>
      let first_line := hd "" lines in
      let body :=
        if String.prefix "[" (str_strip first_line) then tail lines
        else lines in                                        (* seek(0) *)
      let '(self, w, batch) := read_loop self w [] body batch_size in
      if truncated then (self, report_file_error w file_path StreamError)
      else
        let '(self, w) :=
          if bool_decide (batch = []) then (self, w)
          else _process_batch self w batch in
        let self := set_unique_words self (length (word_index self)) in
        let w := print w (MsgProcessed (processed_entries self)) in
        (self,
         if bool_decide (parse_type self = Some "total")
         then print w (MsgTally (lexical_category_counts self))
         else w)
  end.

(** *** save_index *)

Fixpoint _convert_defaultdict_to_dict (dd : pyval) : pyval :=
  match dd with
  | PDict (S _) items =>
      PDict 0 ((λ kv, (kv.1, _convert_defaultdict_to_dict kv.2)) <$> items)
  | _ => dd
  end.

(** [language_iso in lang_data]. *)
Definition has_language (lang_data : pyval) (language_iso : string)
  : result bool :=
  match lang_data with
  | PDict _ items => Ok (bool_decide (is_Some (dict_get language_iso items)))
  | PStr s => Ok (substring_of language_iso s)
  | PList xs =>
      Ok (existsb (λ x, match x with
                        | PStr s => bool_decide (s = language_iso)
                        | _ => false
                        end) xs)
  | PNone | PNum _ => Raise TypeError
  end.

(** The loop that fills [filtered_index]. *)
Fixpoint filter_index (language_iso : string) (entries filtered_index : dict)
  : result dict :=
  match entries with
  | [] => Ok filtered_index
  | (word, lang_data) :: rest =>
      present ← has_language lang_data language_iso;
      if present : bool then
        view ← getitem lang_data language_iso;
        filter_index language_iso rest
          (dict_set word (PDict 0 [(KStr language_iso, view)]) filtered_index)
      else filter_index language_iso rest filtered_index
  end.

Definition save_index (self : LexemeProcessor) (w : world) (filepath : path)
    (language_iso : option string) : result unit * world :=
  if unset language_iso then
    let w := print w (MsgSavingComplete filepath) in
    write_file w filepath
      (json_dump (_convert_defaultdict_to_dict (PDict 3 (word_index self))))
  else
    let code := default "" language_iso in
    match iso_to_name self !! code with
    | None => (Ok tt, print w (MsgUnknownIso code))
    | Some full_language_name =>
        match filter_index code (word_index self) [] with
        | Raise e => (Raise e, w)
        | Ok filtered_index =>
            let lang_filepath :=
              join (join (parent filepath) full_language_name)
                (name filepath) in
            match mkdir_parents w (parent lang_filepath) with
            | (Raise e, w) => (Raise e, w)
            | (Ok _, w) =>
                let w :=
                  print w (MsgSavingLanguage full_language_name lang_filepath) in
                write_file w lang_filepath (json_dump (PDict 0 filtered_index))
            end
        end
    end.

(** *** load_index and get_word_info *)

(** What [dd[key]] holds once the loop body of [_recursive_update] has run
    for [value]. *)
Fixpoint rebuilt (value : pyval) : pyval :=
  match value with
  | PDict _ items =>
      PDict 2 (foldl (λ dd kv, dict_set kv.1 (rebuilt kv.2) dd) [] items)
  | _ => value
  end.

Definition _recursive_update (dd : dict) (data : pyval) : result dict :=
  pairs ← items_of data;
  Ok (foldl (λ dd kv, dict_set kv.1 (rebuilt kv.2) dd) dd pairs).

Definition report_load_error (w : world) (filepath : path) (e : exn) : world :=
  match e with
  | FileNotFoundError =>
      print (log_error w (MsgIndexNotFound filepath)) (MsgIndexNotFound filepath)
  | _ => print (log_error w (MsgLoadError e)) (MsgLoadError e)
  end.

Definition load_index (self : LexemeProcessor) (w : world) (filepath : path)
  : LexemeProcessor * world :=
  let w := print w (MsgLoading filepath) in
  match c ← read_file w filepath; json_load c with
  | Raise e => (self, report_load_error w filepath e)
  | Ok loaded_data =>
      (* self.word_index is a new defaultdict from here on *)
      match _recursive_update [] loaded_data with
      | Raise e => (set_word_index self [], report_load_error w filepath e)
      | Ok idx => (set_word_index self idx, w)
      end
  end.

Definition get_word_info (self : LexemeProcessor) (word : string) : pyval :=
  default (PDict 0 []) (dict_get (str_lower word) (word_index self)).

(** *** parse_dump *)

(** [iso_codes.update(word_data.keys())] for every value of the index. *)
Fixpoint collect_iso_codes (word_datas : list pyval) (iso_codes : list key)
  : result (list key) :=
  match word_datas with
  | [] => Ok iso_codes
  | word_data :: rest =>
      pairs ← items_of word_data;
      collect_iso_codes rest (iso_codes ++ dict_keys pairs)
  end.

(** The loop that saves one file per language.  A code that passes the
    test is a string, as every key of the registry is. *)
Fixpoint save_each (processor : LexemeProcessor) (w : world)
    (index_path : path) (iso_codes : list key) : result unit * world :=
  match iso_codes with
  | [] => (Ok tt, w)
  | iso_code :: rest =>
      match iso_code with
      | KStr code =>
          if bool_decide (is_Some (iso_to_name processor !! code)) then
            match save_index processor w index_path (Some code) with
            | (Raise e, w) => (Raise e, w)
            | (Ok _, w) => save_each processor w index_path rest
            end
          else save_each processor w index_path rest
      | _ => save_each processor w index_path rest
      end
  end.

Definition parse_dump (w : world) (language parse_type : option string)
    (type_output_dir file_path : path) : result unit * world :=
  if bool_decide (parse_type = Some "total") then
    let '(target, w) :=
      if bool_decide (language = Some "all")
      then (None, print w MsgProcessingAll)
      else (language, print w (MsgProcessingFor language)) in
    match LexemeProcessor_init target parse_type with
    | Raise e => (Raise e, w)
    | Ok processor =>
        (Ok tt, (process_file processor w file_path 1000).2)
    end
  else
    match mkdir_parents w type_output_dir with
    | (Raise e, w) => (Raise e, w)
    | (Ok _, w) =>
        let index_path :=
          join type_output_dir
            ("lexeme_index_" +:+ fmt parse_type +:+ ".json") in
        let w := print w (MsgWillSave index_path) in
        match LexemeProcessor_init language parse_type with
        | Raise e => (Raise e, w)
        | Ok processor =>
            let w := print w MsgProcessingFile in
            let '(processor, w) := process_file processor w file_path 1000 in
            let w := print w (MsgFound (length (word_index processor))) in
            match collect_iso_codes (dict_values (word_index processor)) [] with
            | Raise e => (Raise e, w)
            | Ok iso_codes =>
                save_each processor w index_path
                  (set_order (set_of iso_codes))
            end
        end
    end.

End Pipeline.

(** ** A concrete library and concrete tables

    Used to run the definitions on explicit inputs: ASCII versions of
    [str.lower] and [str.strip], and a JSON decoder (null, booleans,
    integers, strings, arrays, objects; a number with a fraction or an
    exponent is not read). *)

Module Sample.

Definition dquote : ascii := ascii_of_nat 34.
Definition backslash : ascii := ascii_of_nat 92.

(** JSON text is written below with ['] where it has a double quote. *)
Definition json_text (s : string) : string :=
  String.string_of_list_ascii
    ((λ c, if Ascii.eqb c "'" then dquote else c)
       <$> String.list_ascii_of_string s).

Definition lower_char (c : ascii) : ascii :=
  let n := nat_of_ascii c in
  if (65 <=? n) && (n <=? 90) then ascii_of_nat (n + 32) else c.

Definition lower (s : string) : string :=
  String.string_of_list_ascii (lower_char <$> String.list_ascii_of_string s).

(** ASCII white space, as [str.strip] sees it. *)
Definition is_space (c : ascii) : bool :=
  let n := nat_of_ascii c in
  (n =? 32) || ((9 <=? n) && (n <=? 13)) || ((28 <=? n) && (n <=? 31)).

Fixpoint lstrip (cs : list ascii) : list ascii :=
  match cs with
  | c :: rest => if is_space c then lstrip rest else cs
  | [] => []
  end.

Definition strip (s : string) : string :=
  String.string_of_list_ascii
    (rev (lstrip (rev (lstrip (String.list_ascii_of_string s))))).

(** White space between JSON tokens. *)
Definition is_json_space (c : ascii) : bool :=
  let n := nat_of_ascii c in
  (n =? 32) || (n =? 9) || (n =? 10) || (n =? 13).

Fixpoint skip_space (cs : list ascii) : list ascii :=
  match cs with
  | c :: rest => if is_json_space c then skip_space rest else cs
  | [] => []
  end.

Definition unescape (c : ascii) : option ascii :=
  if Ascii.eqb c dquote then Some dquote
  else if Ascii.eqb c backslash then Some backslash
  else if Ascii.eqb c "/" then Some "/"%char
  else if Ascii.eqb c "n" then Some (ascii_of_nat 10)
  else if Ascii.eqb c "t" then Some (ascii_of_nat 9)
  else if Ascii.eqb c "r" then Some (ascii_of_nat 13)
  else if Ascii.eqb c "b" then Some (ascii_of_nat 8)
  else if Ascii.eqb c "f" then Some (ascii_of_nat 12)
  else None.

(** The characters of a string literal after its opening quote. *)
Fixpoint string_body (cs acc : list ascii) : option (string * list ascii) :=
  match cs with
  | [] => None
  | c :: rest =>
      if Ascii.eqb c dquote
      then Some (String.string_of_list_ascii (rev acc), rest)
      else if Ascii.eqb c backslash then
        match rest with
        | e :: rest' =>
            match unescape e with
            | Some c' => string_body rest' (c' :: acc)
            | None => None
            end
        | [] => None
        end
      else if nat_of_ascii c <? 32 then None
      else string_body rest (c :: acc)
  end.

(** An integer literal: an optional sign and digits without a leading
    zero, not followed by a fraction or an exponent. *)
Definition digit (c : ascii) : option Z :=
  let n := nat_of_ascii c in
  if (48 <=? n) && (n <=? 57) then Some (Z.of_nat (n - 48)) else None.

Fixpoint digits (cs : list ascii) (acc : Z) : Z * list ascii :=
  match cs with
  | c :: rest =>
      match digit c with
      | Some d => digits rest (10 * acc + d)
      | None => (acc, cs)
      end
  | [] => (acc, [])
  end.

Definition natural (cs : list ascii) : option (Z * list ascii) :=
  match cs with
  | c :: rest =>
      match digit c with
      | Some d =>
          let '(n, rest') := digits rest d in
          match rest, rest' with
          | _, "."%char :: _ | _, "e"%char :: _ | _, "E"%char :: _ => None
          | c' :: _, _ =>
              if bool_decide (d = 0%Z) && bool_decide (is_Some (digit c'))
              then None else Some (n, rest')
          | [], _ => Some (n, rest')
          end
      | None => None
      end
  | [] => None
  end.

Definition integer (cs : list ascii) : option (Z * list ascii) :=
  match cs with
  | "-"%char :: rest =>
      match natural rest with
      | Some (n, rest') => Some ((- n)%Z, rest')
      | None => None
      end
  | _ => natural cs
  end.

Fixpoint value (fuel : nat) (cs : list ascii) : option (pyval * list ascii) :=
  match fuel with
  | 0 => None
  | S fuel =>
      match skip_space cs with
      | "n"%char :: "u"%char :: "l"%char :: "l"%char :: rest => Some (PNone, rest)
      | "t"%char :: "r"%char :: "u"%char :: "e"%char :: rest =>
          Some (PNum (Bool true), rest)
      | "f"%char :: "a"%char :: "l"%char :: "s"%char :: "e"%char :: rest =>
          Some (PNum (Bool false), rest)
      | "["%char :: rest =>
          match skip_space rest with
          | "]"%char :: rest' => Some (PList [], rest')
          | _ => elements fuel rest []
          end
      | "{"%char :: rest =>
          match skip_space rest with
          | "}"%char :: rest' => Some (PDict 0 [], rest')
          | _ => members fuel rest []
          end
      | c :: rest =>
          if Ascii.eqb c dquote then
            match string_body rest [] with
            | Some (s, rest') => Some (PStr s, rest')
            | None => None
            end
          else
            match integer (c :: rest) with
            | Some (n, rest') => Some (PNum (Int n), rest')
            | None => None
            end
      | [] => None
      end
  end
with elements (fuel : nat) (cs : list ascii) (acc : list pyval)
  : option (pyval * list ascii) :=
  match fuel with
  | 0 => None
  | S fuel =>
      match value fuel cs with
      | Some (v, rest) =>
          match skip_space rest with
          | ","%char :: rest' => elements fuel rest' (acc ++ [v])
          | "]"%char :: rest' => Some (PList (acc ++ [v]), rest')
          | _ => None
          end
      | None => None
      end
  end
with members (fuel : nat) (cs : list ascii) (acc : dict)
  : option (pyval * list ascii) :=
  match fuel with
  | 0 => None
  | S fuel =>
      match skip_space cs with
      | c :: rest =>
          if Ascii.eqb c dquote then
            match string_body rest [] with
            | Some (name, rest') =>
                match skip_space rest' with
                | ":"%char :: rest'' =>
                    match value fuel rest'' with
                    | Some (v, rest3) =>
                        match skip_space rest3 with
                        | ","%char :: rest4 =>
                            members fuel rest4 (dict_set (KStr name) v acc)
                        | "}"%char :: rest4 =>
                            Some (PDict 0 (dict_set (KStr name) v acc), rest4)
                        | _ => None
                        end
                    | None => None
                    end
                | _ => None
                end
            | None => None
            end
          else None
      | [] => None
      end
  end.

(** One JSON document and nothing after it but white space. *)
Definition loads (s : string) : option pyval :=
  let cs := String.list_ascii_of_string s in
  match value (2 * length cs + 2) cs with
  | Some (v, rest) =>
      match skip_space rest with
      | [] => if well_formed v && str_keys v then Some v else None
      | _ => None
      end
  | None => None
  end.

Definition languages : list (string * language_data) :=
  [ ("english", {| iso := Some "en"; sub_languages := None |});
    ("french", {| iso := Some "fr"; sub_languages := None |});
    ("norwegian",
     {| iso := None;
        sub_languages :=
          Some [ ("bokmal", {| sub_iso := Some "nb" |});
                 ("nynorsk", {| sub_iso := Some "nn" |}) ] |}) ].

Definition data_types : list (string * string) :=
  [ ("nouns", "Q1084"); ("verbs", "Q24905"); ("adjectives", "Q34698") ].

Lemma loads_checked s v :
  loads s = Some v → well_formed v = true ∧ str_keys v = true.
Proof.
  unfold loads. intros Hl.
  destruct (value _ _) as [[v' rest]|]; [|done].
  destruct (skip_space rest); [|done].
  destruct (well_formed v') eqn:Hwf; [|done].
  destruct (str_keys v') eqn:Hkeys; [|done].
  simpl in Hl. by injection Hl as <-.
Qed.

Lemma loads_dict s v : loads s = Some v → well_formed v = true.
Proof. intros Hl. by apply loads_checked in Hl as [? _]. Qed.

Lemma loads_keys s v : loads s = Some v → str_keys v = true.
Proof. intros Hl. by apply loads_checked in Hl as [_ ?]. Qed.

Lemma same_order (l : list key) : l ≡ₚ l.
Proof. reflexivity. Qed.

(** The examples hold no dictionary with a float as key, so no float is
    ever written as a key; the floats that are whole numbers are given
    their text, ["1.0"] for [1.0]. *)
Definition whole_float_repr (m e : Z) : string :=
  pretty (m * 2 ^ e)%Z +:+ ".0".

Definition library : Library := {|
  orjson_loads := loads;
  orjson_loads_dict := loads_dict;
  orjson_loads_keys := loads_keys;
  str_lower := lower;
  str_strip := strip;
  float_repr := whole_float_repr;
  set_order := λ l, l;
  set_order_perm := same_order;
|}.

Definition metadata : Metadata := {|
  language_metadata := languages;
  data_type_metadata := data_types;
|}.

(** A few lines of a dump, and worlds that hold them. *)
Definition newline : string := String (ascii_of_nat 10) EmptyString.

Definition line_dog : string :=
  json_text "{'lemmas': {'en': {'language': 'en', 'value': 'Dog'}}, 'lexicalCategory': 'Q1084', 'senses': [{'glosses': {'en': {'language': 'en', 'value': 'animal'}, 'fr': {'language': 'fr', 'value': 'chien'}, 'de': {'language': 'de', 'value': 'Hund'}}}]}".

Definition line_chat : string :=
  json_text "{'lemmas': {'fr': {'language': 'fr', 'value': 'chat'}}, 'lexicalCategory': 'Q1084', 'senses': [{'glosses': {'en': {'language': 'en', 'value': 'cat'}}}]}".

Definition line_hund : string :=
  json_text "{'lemmas': {'de': {'language': 'de', 'value': 'Hund'}}, 'lexicalCategory': 'Q1084', 'senses': [{'glosses': {'en': {'language': 'en', 'value': 'dog'}}}]}".

Definition line_hound : string :=
  json_text "{'lemmas': {'de': {'language': 'de', 'value': 'Hund'}, 'en': {'language': 'en', 'value': 'hound'}, 'fr': {'language': 'fr', 'value': 'chien'}}, 'lexicalCategory': 'Q1084', 'senses': []}".

(** A lexeme whose lexical category is a number. *)
Definition line_five : string :=
  json_text "{'lemmas': {'en': {'language': 'en', 'value': 'Dog'}}, 'lexicalCategory': 5, 'senses': [{'glosses': {'en': {'value': 'animal'}}}]}".


Definition dump_lines : list string :=
  [ "[" +:+ newline;
    line_dog +:+ "," +:+ newline;
    line_hund +:+ "," +:+ newline;
    "not json" +:+ newline;
    line_chat +:+ newline;
    "]" +:+ newline ].

Definition empty_world : world := mkWorld ∅ ∅ [] [].

Definition dump_world : world :=
  mkWorld {[ ["latest-lexemes.json.bz2"] := DumpFile dump_lines false ]} ∅ [] [].

End Sample.


(** ** Vocabulary of the statements *)

(** [n] commas in a row. *)
Definition commas (n : nat) : string := Nat.iter n (String ","%char) EmptyString.

(** Removing one trailing comma when there is one: the cleaning that the
    written specification of the entry parser describes. *)
Fixpoint remove_one_comma (s : string) : string :=
  match s with
  | EmptyString => EmptyString
  | String c EmptyString =>
      if decide (c = ","%char) then EmptyString else s
  | String c rest => String c (remove_one_comma rest)
  end.

(** The items of a dictionary; nothing for any other value. *)
Definition sub_items (v : pyval) : dict :=
  match v with
  | PDict _ items => items
  | _ => []
  end.

(** What the index holds at [word][lang][category]. *)
Definition index_at (idx : dict) (word lang : string) (category : key)
  : option pyval :=
  by_lang ← dict_get word idx;
  by_cat ← dict_get lang (sub_items by_lang);
  dict_get category (sub_items by_cat).

(** The language keys of an index: the keys of its second level (anchor
    languages) and of its fourth level (gloss languages). *)
Definition language_keys (idx : dict) : list key :=
  by_lang ← dict_values idx;
  lang_cats ← sub_items by_lang;
  lang_cats.1 ::
    (glosses ← dict_values (sub_items lang_cats.2); dict_keys (sub_items glosses)).

(** The invariant of an index built by the translation aggregator: below
    a word a [defaultdict] keyed by registry codes, below a language a
    dictionary of categories, below a category a dictionary keyed by
    registry codes. *)
Definition known_keys (reg : gmap string string) (d : dict) : bool :=
  forallb (λ kv, in_registry reg kv.1) d.

Definition categories_ok (reg : gmap string string) (by_cat : pyval) : bool :=
  match by_cat with
  | PDict _ cats =>
      forallb (λ kv, match kv.2 with
                     | PDict _ glosses => known_keys reg glosses
                     | _ => false
                     end) cats
  | _ => false
  end.

Definition languages_ok (reg : gmap string string) (by_lang : pyval) : bool :=
  match by_lang with
  | PDict (S _) langs =>
      known_keys reg langs && forallb (λ kv, categories_ok reg kv.2) langs
  | _ => false
  end.

Definition index_ok (reg : gmap string string) (idx : dict) : bool :=
  forallb (λ kv, languages_ok reg kv.2) idx.

(** An index whose keys, other than the lexical categories, are strings:
    below a word (a string) a dictionary keyed by strings, below a
    language a dictionary, and below a category a value in which every key
    is a string.  The empty index of a new processor is one, and the
    translation aggregator keeps it so. *)
Definition string_keyed (idx : dict) : bool :=
  forallb
    (λ by_word,
       is_str by_word.1
       && match by_word.2 with
          | PDict _ langs =>
              forallb
                (λ by_lang,
                   is_str by_lang.1
                   && match by_lang.2 with
                      | PDict _ cats => forallb (λ by_cat, str_keys by_cat.2) cats
                      | _ => false
                      end) langs
          | _ => false
          end) idx.

(** The lexical categories stored below a word are all strings. *)
Definition string_categories (by_lang : pyval) : bool :=
  forallb (λ by_lang, forallb (λ by_cat, is_str by_cat.1) (sub_items by_lang.2))
    (sub_items by_lang).

(** The language that the first lemma of a lexeme declares (the anchor
    language), when the lexeme has a first lemma. *)
Definition anchor_language (lexeme : pyval) : option pyval :=
  match default (PDict 0 []) (dict_get "lemmas" (sub_items lexeme)) with
  | PDict _ ((_, PDict _ lemma) :: _) =>
      Some (default (PStr "") (dict_get "language" lemma))
  | _ => None
  end.

(** The gloss text that a sense gives for a language code, and the one
    that a sequence of senses gives: the last sense that has one wins. *)
Definition gloss_value (sense : pyval) (code : string) : option pyval :=
  glosses ← dict_get "glosses" (sub_items sense);
  gloss ← dict_get code (sub_items glosses);
  dict_get "value" (sub_items gloss).

Fixpoint collected (senses : list pyval) (code : string) : option pyval :=
  match senses with
  | [] => None
  | sense :: rest =>
      match collected rest code with
      | Some v => Some v
      | None => gloss_value sense code
      end
  end.

(** A sense as the lexeme schema has it: an object whose ["glosses"], when
    present, is an object, each gloss of a registry language being an
    object with a ["value"]. *)
Definition valid_gloss (reg : gmap string string) (kv : key * pyval) : bool :=
  negb (in_registry reg kv.1)
  || match kv.2 with
     | PDict _ gloss => bool_decide (is_Some (dict_get "value" gloss))
     | _ => false
     end.

Definition valid_sense (reg : gmap string string) (sense : pyval) : bool :=
  match sense with
  | PDict _ fields =>
      match default (PDict 0 []) (dict_get "glosses" fields) with
      | PDict _ glosses => forallb (valid_gloss reg) glosses
      | _ => false
      end
  | _ => false
  end.

(** The value that the items of one gloss map give for a code, when the
    code is in the registry. *)
Definition entry_value (reg : gmap string string) (glosses : dict)
    (code : string) : option pyval :=
  if bool_decide (is_Some (reg !! code))
  then gloss ← dict_get code glosses; dict_get "value" (sub_items gloss)
  else None.

(** A lemma as the lexeme schema has it: an object whose ["language"],
    when present, is a string (or null, or a number: anything that can be
    looked up in the registry). *)
Definition valid_lemma (lemma : pyval) : bool :=
  match lemma with
  | PDict _ fields =>
      match default PNone (dict_get "language" fields) with
      | PStr _ | PNone | PNum _ => true
      | PList _ | PDict _ _ => false
      end
  | _ => false
  end.

(** The language of the first lemma whose language is in the registry. *)
Fixpoint first_known_language (reg : gmap string string) (lemmas : list pyval)
  : option string :=
  match lemmas with
  | [] => None
  | lemma :: rest =>
      match dict_get "language" (sub_items lemma) with
      | Some (PStr lang) =>
          if bool_decide (is_Some (reg !! lang)) then Some lang
          else first_known_language reg rest
      | _ => first_known_language reg rest
      end
  end.

(** The anchor-language codes of an index: the keys of its second level,
    which are what [parse_dump] gathers in [iso_codes]. *)
Definition anchor_codes (idx : dict) : list key :=
  by_lang ← dict_values idx; dict_keys (sub_items by_lang).

(** The view of an index for one language: for every word that has the
    code, the word with only that language below it. *)
Definition filtered (idx : dict) (code : string) : dict :=
  omap (λ kv, (λ view, (kv.1, PDict 0 [(KStr code, view)]))
                <$> dict_get code (sub_items kv.2)) idx.

(** The entry of a table that has the given name. *)
Fixpoint entry_named {V} (name : string) (table : list (string * V))
  : option V :=
  match table with
  | [] => None
  | (name', v) :: rest =>
      if decide (name = name') then Some v else entry_named name rest
  end.

(** The name of the index file and the path of the file of one language. *)
Definition index_file_name (parse_type : option string) : string :=
  "lexeme_index_" +:+ fmt parse_type +:+ ".json".

Definition language_file (type_output_dir : path) (language_name : string)
    (parse_type : option string) : path :=
  type_output_dir ++ [language_name; index_file_name parse_type].

(** A registry as the language table gives it: no empty code, and names
    that are path segments of their own. *)
Definition registry_ok (reg : gmap string string) : bool :=
  bool_decide
    (map_Forall (λ code name, code ≠ "" ∧ name ≠ "" ∧ name ≠ ".") reg).

Section Vocabulary.
Context `{Library} `{Metadata}.

(** The registry, the mode and the statistics of two processors agree. *)
Definition same_settings (a b : LexemeProcessor) : Prop :=
  iso_to_name a = iso_to_name b
  ∧ parse_type a = parse_type b
  ∧ target_iso a = target_iso b
  ∧ processed_entries a = processed_entries b
  ∧ unique_words a = unique_words b.

(** The lines of a dump that are not structural, and the lines left once
    an opening bracket line has been consumed. *)
Definition kept (lines : list string) : list string :=
  List.filter (λ line, negb (structural (str_strip line))) lines.

Definition dump_body (lines : list string) : list string :=
  if String.prefix "[" (str_strip (hd "" lines)) then tail lines else lines.

(** The end of [process_file] once every line has been processed. *)
Definition finished (st : LexemeProcessor * world) (entries : nat)
  : LexemeProcessor * world :=
  let self :=
    set_unique_words
      (set_processed_entries st.1 (entries + processed_entries st.1))
      (length (word_index st.1)) in
  let w := print st.2 (MsgProcessed (processed_entries self)) in
  (self,
   if bool_decide (parse_type self = Some "total")
   then print w (MsgTally (lexical_category_counts self))
   else w).

End Vocabulary.

(** ** Further vocabulary *)





(** * Properties *)

(** ** Dictionaries *)

Lemma same_key_refl k : same_key k k = true.
Proof. unfold same_key. by apply bool_decide_eq_true_2. Qed.

Lemma same_key_sym k k' : same_key k k' = same_key k' k.
Proof. unfold same_key. apply bool_decide_ext. split; congruence. Qed.

Lemma same_key_trans k1 k2 k3 :
  same_key k1 k2 = true → same_key k2 k3 = same_key k1 k3.
Proof.
  unfold same_key. intros Hk%bool_decide_eq_true_1.
  apply bool_decide_ext. split; congruence.
Qed.

Lemma same_key_str (s t : string) : same_key s t = bool_decide (s = t).
Proof. unfold same_key. apply bool_decide_ext. split; simpl; congruence. Qed.

Lemma dyadic_number m e : ∃ m' e', dyadic m e = HNum m' e'.
Proof.
  destruct m as [|p|p]; simpl; [eauto| |]; destruct (odd_part p); eauto.
Qed.

(** Only a string is the same key as a string. *)
Lemma same_key_str_inv (s : string) k : same_key s k = true → k = KStr s.
Proof.
  unfold same_key. intros Hk%bool_decide_eq_true_1.
  destruct k as [|t|n]; simpl in Hk; [done|congruence|].
  destruct n as [[]|n|m e]; simpl in Hk;
    [done|done| |];
    match type of Hk with
    | _ = dyadic ?m ?e => destruct (dyadic_number m e) as (?&?&Hd)
    end; congruence.
Qed.

Lemma in_registry_str (reg : gmap string string) k :
  in_registry reg k = true ↔ ∃ code : string, k = KStr code ∧ is_Some (reg !! code).
Proof.
  destruct k as [|s|n]; simpl.
  - split; [done|]. by intros (?&?&?).
  - rewrite bool_decide_eq_true. split; [eauto|]. by intros (?&[= ->]&?).
  - split; [done|]. by intros (?&?&?).
Qed.

Section Dictionaries.
Context {V : Type}.
Implicit Types (d : list (key * V)) (k : key) (v : V).

Lemma dict_get_set_same d k k' v :
  same_key k k' = true → dict_get k' (dict_set k v d) = Some v.
Proof.
  unfold same_key. intros Hk%bool_decide_eq_true_1.
  induction d as [|[k0 v0] d IH]; simpl; unfold same_key in *;
    repeat case_bool_decide; simpl; unfold same_key;
    repeat case_bool_decide; congruence.
Qed.

Lemma dict_get_set_eq d k v : dict_get k (dict_set k v d) = Some v.
Proof. apply dict_get_set_same, same_key_refl. Qed.

Lemma dict_get_set_other d k k' v :
  same_key k k' = false → dict_get k' (dict_set k v d) = dict_get k' d.
Proof.
  unfold same_key. intros Hk%bool_decide_eq_false_1.
  induction d as [|[k0 v0] d IH]; simpl; unfold same_key in *;
    repeat case_bool_decide; simpl; unfold same_key;
    repeat case_bool_decide; congruence.
Qed.

Lemma dict_get_set_ne d (s t : string) v :
  s ≠ t → dict_get t (dict_set s v d) = dict_get t d.
Proof.
  intros Hne. apply dict_get_set_other. rewrite same_key_str.
  by apply bool_decide_eq_false_2.
Qed.

(** Two keys that are the same key find the same value. *)
Lemma dict_get_same d k k' :
  same_key k k' = true → dict_get k d = dict_get k' d.
Proof.
  unfold same_key. intros Hk%bool_decide_eq_true_1.
  induction d as [|[k0 v0] d IH]; simpl; [done|]. unfold same_key.
  repeat case_bool_decide; congruence.
Qed.

Lemma dict_get_Some_elem d k v :
  dict_get k d = Some v → ∃ k', same_key k k' = true ∧ (k', v) ∈ d.
Proof.
  induction d as [|[k0 v0] d IH]; simpl; [done|].
  destruct (same_key k k0) eqn:Hk.
  - intros [= ->]. exists k0. split; [done|left].
  - intros Hget. destruct (IH Hget) as (k' & ? & ?). exists k'.
    split; [done|by right].
Qed.

Lemma dict_get_None d k : dict_get k d = None ↔ key_class k ∉ key_classes d.
Proof.
  unfold key_classes, dict_keys. induction d as [|[k' v'] d IH]; simpl.
  - split; [intros _; apply not_elem_of_nil | done].
  - rewrite not_elem_of_cons. unfold same_key at 1. case_bool_decide as Hk.
    + split; [done | intros [? _]; done].
    + rewrite IH. tauto.
Qed.

Lemma dict_get_elem d k v :
  NoDup (key_classes d) → (k, v) ∈ d → dict_get k d = Some v.
Proof.
  unfold key_classes, dict_keys. induction d as [|[k' v'] d IH]; simpl.
  - intros _ Hin. by apply elem_of_nil in Hin.
  - rewrite NoDup_cons. intros [Hk' Hnd] Hin.
    apply elem_of_cons in Hin as [[= -> ->]|Hin].
    + by rewrite same_key_refl.
    + unfold same_key at 1. case_bool_decide as Hk; [|by apply IH].
      exfalso. apply Hk'. rewrite <- Hk.
      apply list_elem_of_fmap. exists k. split; [done|].
      apply list_elem_of_fmap. by exists (k, v).
Qed.

Lemma key_classes_set d k v :
  key_classes (dict_set k v d)
  = if decide (key_class k ∈ key_classes d) then key_classes d
    else key_classes d ++ [key_class k].
Proof.
  unfold key_classes, dict_keys. induction d as [|[k' v'] d IH].
  - simpl. destruct (decide (key_class k ∈ [])) as [Hin|_]; [|done].
    by apply elem_of_nil in Hin.
  - cbn [dict_set]. unfold same_key at 1. case_bool_decide as Hk.
    + rewrite decide_True by (simpl; rewrite Hk; left). done.
    + rewrite !fmap_cons, IH. simpl.
      destruct (decide (key_class k ∈ key_class <$> d.*1)) as [Hin|Hnin].
      * rewrite decide_True by (by right). done.
      * rewrite decide_False; [done|].
        rewrite not_elem_of_cons. done.
Qed.

Lemma dict_set_NoDup d k v :
  NoDup (key_classes d) → NoDup (key_classes (dict_set k v d)).
Proof.
  intros Hnd. rewrite key_classes_set. case_decide; [done|].
  apply NoDup_app. split_and!; [done | | apply NoDup_singleton].
  intros x Hx Hx'. apply list_elem_of_singleton in Hx' as ->. done.
Qed.

(** An assignment keeps what holds of every item, when it holds of the
    new value under the key that is kept. *)
Lemma forallb_dict_set (P : key * V → bool) d k v :
  forallb P d = true →
  (∀ k', same_key k k' = true → P (k', v) = true) →
  forallb P (dict_set k v d) = true.
Proof.
  intros Hd Hkv. induction d as [|[k' v'] d IH]; simpl in *.
  - by rewrite (Hkv k (same_key_refl k)).
  - apply andb_prop in Hd as [H1 H2].
    destruct (same_key k k') eqn:Hk; simpl.
    + by rewrite (Hkv k' Hk), H2.
    + by rewrite H1, IH.
Qed.

Lemma forallb_dict_get (P : V → bool) d k v :
  forallb (λ kv, P kv.2) d = true → dict_get k d = Some v → P v = true.
Proof.
  intros Hd Hget. apply dict_get_Some_elem in Hget as (k' & _ & Hin).
  rewrite forallb_forall in Hd. apply (Hd (k', v)). by apply list_elem_of_In.
Qed.

End Dictionaries.

(** ** What a line leaves alone *)

Section Frame.
Context `{Library} `{Metadata}.

(** The registry, the mode and the statistics are not touched by the
    aggregators, and the aggregators do not read the statistics. *)
Lemma tally_lemmas_settings self category lemmas self' :
  tally_lemmas self category lemmas = Ok self' →
  same_settings self' self ∧ word_index self' = word_index self.
Proof.
  induction lemmas as [|lemma rest IH]; simpl.
  - intros [= <-]. by repeat split.
  - destruct (get lemma "language" PNone) as [lang|]; simpl; [|done].
    destruct (known_code _ lang) as [[code|]|]; simpl; [| |done].
    + destruct (category_name_of category) as [name|].
      * case_bool_decide; intros [= <-]; by repeat split.
      * intros [= <-]; by repeat split.
    + apply IH.
Qed.

Lemma _process_lexeme_total_settings self lexeme :
  same_settings (_process_lexeme_total self lexeme).2 self
  ∧ word_index (_process_lexeme_total self lexeme).2 = word_index self.
Proof.
  unfold _process_lexeme_total.
  destruct (get lexeme "lexicalCategory" PNone) as [category|]; simpl;
    [|by repeat split].
  destruct (negb _ || negb _); simpl; [by repeat split|].
  destruct (get lexeme "lemmas" _) as [lemmas|]; simpl; [|by repeat split].
  destruct (values_of lemmas) as [each|]; simpl; [|by repeat split].
  destruct (tally_lemmas self category each) as [self'|] eqn:Ht; simpl;
    [|by repeat split].
  by apply tally_lemmas_settings in Ht.
Qed.

Lemma _process_lexeme_translations_settings self lexeme :
  same_settings (_process_lexeme_translations self lexeme).2 self
  ∧ lexical_category_counts (_process_lexeme_translations self lexeme).2
    = lexical_category_counts self.
Proof.
  unfold _process_lexeme_translations.
  destruct (extract_translations _ lexeme) as [[[[[word lang] datatype] tr]|]|];
    simpl; [|by repeat split..].
  destruct (index_assign _ _ _ _ _) as [r idx]. by repeat split.
Qed.

Lemma process_lines_settings self w line :
  same_settings (process_lines self w line).2.1 self.
Proof.
  unfold process_lines.
  destruct (orjson_loads _) as [lexeme|]; [|by repeat split].
  case_bool_decide.
  { pose proof (_process_lexeme_translations_settings self lexeme) as [Hs _].
    by destruct (_process_lexeme_translations self lexeme) as [[v|e] self']. }
  case_bool_decide; [|by repeat split].
  pose proof (_process_lexeme_total_settings self lexeme) as [Hs _].
  by destruct (_process_lexeme_total self lexeme) as [[v|e] self'].
Qed.

Lemma process_lines_world self w line :
  files (process_lines self w line).2.2 = files w
  ∧ dirs (process_lines self w line).2.2 = dirs w
  ∧ stdout (process_lines self w line).2.2 = stdout w.
Proof.
  unfold process_lines.
  destruct (orjson_loads _) as [lexeme|]; [|done].
  case_bool_decide.
  { by destruct (_process_lexeme_translations self lexeme) as [[v|e] self']. }
  case_bool_decide; [|done].
  by destruct (_process_lexeme_total self lexeme) as [[v|e] self'].
Qed.

(** The entry counter only rides along. *)
Lemma tally_lemmas_entries self category lemmas n :
  tally_lemmas (set_processed_entries self n) category lemmas
  = (λ s, set_processed_entries s n) <$> tally_lemmas self category lemmas.
Proof.
  induction lemmas as [|lemma rest IH]; simpl; [done|].
  destruct (get lemma "language" PNone) as [lang|]; simpl; [|done].
  destruct (known_code _ lang) as [[code|]|]; simpl; [| |done].
  - destruct (category_name_of category) as [name|]; [|done].
    by case_bool_decide.
  - apply IH.
Qed.

Lemma process_lines_entries self w line n :
  process_lines (set_processed_entries self n) w line
  = let '(v, (self', w')) := process_lines self w line in
    (v, (set_processed_entries self' n, w')).
Proof.
  unfold process_lines. simpl.
  destruct (orjson_loads _) as [lexeme|]; [|done].
  case_bool_decide.
  { unfold _process_lexeme_translations. simpl.
    destruct (extract_translations _ lexeme)
      as [[[[[word lang] datatype] tr]|]|]; simpl; [|done..].
    destruct (index_assign _ _ _ _ _) as [[[]|e] idx]; done. }
  case_bool_decide; [|done].
  unfold _process_lexeme_total.
  destruct (get lexeme "lexicalCategory" PNone) as [category|]; simpl; [|done].
  destruct (negb _ || negb _); simpl; [done|].
  destruct (get lexeme "lemmas" _) as [lemmas|]; simpl; [|done].
  destruct (values_of lemmas) as [each|]; simpl; [|done].
  rewrite tally_lemmas_entries.
  by destruct (tally_lemmas self category each).
Qed.

Lemma _process_batch_entries self w batch n :
  _process_batch (set_processed_entries self n) w batch
  = let '(self', w') := _process_batch self w batch in
    (set_processed_entries self' n, w').
Proof.
  unfold _process_batch. revert self w.
  induction batch as [|line batch IH]; intros self w; simpl; [done|].
  rewrite process_lines_entries.
  destruct (process_lines self w line) as [v [self' w']]. simpl. apply IH.
Qed.

Lemma _process_batch_app self w batch batch' :
  _process_batch self w (batch ++ batch')
  = let '(self', w') := _process_batch self w batch in
    _process_batch self' w' batch'.
Proof.
  unfold _process_batch. rewrite foldl_app.
  by destruct (foldl _ (self, w) batch).
Qed.

Lemma _process_batch_settings self w batch :
  same_settings (_process_batch self w batch).1 self.
Proof.
  unfold _process_batch. revert self w.
  induction batch as [|line batch IH]; intros self w; simpl.
  - by repeat split.
  - pose proof (process_lines_settings self w line) as Hs.
    destruct (process_lines self w line) as [v [self' w']]. simpl in *.
    specialize (IH self' w').
    destruct IH as (?&?&?&?&?), Hs as (?&?&?&?&?).
    repeat split; congruence.
Qed.

End Frame.

(** ** Batching *)

Section Batching.
Context `{Library} `{Metadata}.

Lemma bump_bump self n m :
  set_processed_entries (set_processed_entries self n) m
  = set_processed_entries self m.
Proof. done. Qed.

(** The loop followed by the flush of the pending batch is the fold of
    [process_lines] over the kept lines, whatever the batch size. *)
Lemma read_loop_flush self w batch lines batch_size :
  (let '(self', w', pending) := read_loop self w batch lines batch_size in
   _process_batch self' w' pending)
  = let '(self', w') := _process_batch self w (batch ++ kept lines) in
    (set_processed_entries self'
       (length (kept lines) + processed_entries self), w').
Proof.
  revert self w batch.
  induction lines as [|line rest IH]; intros self w batch; simpl.
  - rewrite app_nil_r.
    pose proof (_process_batch_settings self w batch) as (_&_&_&He&_).
    destruct (_process_batch self w batch) as [self' w']. simpl in *.
    rewrite <- He. by destruct self'.
  - destruct (structural (str_strip line)) eqn:Hs; simpl; [apply IH|].
    case_bool_decide as Hfull.
    + pose proof (_process_batch_settings self w (batch ++ [line]))
        as (_&_&_&He&_).
      replace (batch ++ line :: kept rest) with ((batch ++ [line]) ++ kept rest)
        by (by rewrite <- app_assoc).
      rewrite (_process_batch_app self w (batch ++ [line]) (kept rest)).
      destruct (_process_batch self w (batch ++ [line])) as [self1 w1].
      simpl in He.
      specialize (IH (set_processed_entries self1 (S (processed_entries self1)))
                    w1 []).
      simpl in IH. rewrite IH. rewrite _process_batch_entries.
      destruct (_process_batch self1 w1 (kept rest)) as [self2 w2].
      simpl. rewrite He. f_equal. f_equal. lia.
    + specialize (IH (set_processed_entries self (S (processed_entries self)))
                    w (batch ++ [line])).
      rewrite IH. simpl.
      replace ((batch ++ [line]) ++ kept rest) with (batch ++ line :: kept rest)
        by (by rewrite <- app_assoc).
      rewrite _process_batch_entries.
      destruct (_process_batch self w _) as [self2 w2].
      simpl. f_equal. f_equal. lia.
Qed.

Lemma process_file_intact self w file_path lines batch_size :
  read_dump w file_path = Ok (lines, false) →
  process_file self w file_path batch_size
  = finished (_process_batch self w (kept (dump_body lines)))
      (length (kept (dump_body lines))).
Proof.
  intros Hread. unfold process_file.
  assert (stat w file_path = Ok tt) as ->.
  { unfold read_dump, read_file, stat in *.
    destruct (blocked w file_path); [done|].
    destruct (is_dir w file_path); [done|]. simpl.
    unfold is_file. destruct (files w !! file_path); [|done].
    by rewrite bool_decide_eq_true_2. }
  simpl. rewrite Hread.
  assert ((let first_line := hd "" lines in
           if String.prefix "[" (str_strip first_line) then tail lines
           else lines) = dump_body lines) as Hbody by done.
  assert (∀ body,
    (let '(self0, w0, pending) := read_loop self w [] body batch_size in
     let '(self1, w1) :=
       if bool_decide (pending = []) then (self0, w0)
       else _process_batch self0 w0 pending in
     let self2 := set_unique_words self1 (length (word_index self1)) in
     let w2 := print w1 (MsgProcessed (processed_entries self2)) in
     (self2,
      if bool_decide (parse_type self2 = Some "total")
      then print w2 (MsgTally (lexical_category_counts self2)) else w2))
    = finished (_process_batch self w (kept body)) (length (kept body)))
    as Hfin.
  { intros body.
    pose proof (read_loop_flush self w [] body batch_size) as Hloop.
    pose proof (_process_batch_settings self w (kept body)) as (_&_&_&He&_).
    simpl in Hloop.
    destruct (read_loop self w [] body batch_size) as [[self0 w0] pending].
    assert ((if bool_decide (pending = []) then (self0, w0)
             else _process_batch self0 w0 pending)
            = _process_batch self0 w0 pending) as ->.
    { case_bool_decide as Hp; [by subst pending | done]. }
    rewrite Hloop. unfold finished.
    destruct (_process_batch self w (kept body)) as [self1 w1].
    simpl in *. by rewrite He. }
  destruct lines as [|first more].
  - simpl. rewrite <- Hbody. simpl.
    destruct (String.prefix _ _); simpl; apply (Hfin []).
  - cbv zeta in *. rewrite Hbody. apply Hfin.
Qed.

End Batching.

Section BatchingClaim.
Context `{Library} `{Metadata}.

(** C7.  Whatever the batch size, [process_file] on a dump that is read to
    its end leaves the same processor and the same world: the one obtained
    by giving the kept lines to [process_lines] one at a time, in the
    order of the file. *)
Theorem batch_size_has_no_effect self w file_path lines b1 b2 :
  read_dump w file_path = Ok (lines, false) →
  process_file self w file_path b1 = process_file self w file_path b2
  ∧ process_file self w file_path b1
    = finished
        (foldl (λ st line, (process_lines st.1 st.2 line).2) (self, w)
           (kept (dump_body lines)))
        (length (kept (dump_body lines))).
Proof.
  intros Hread. split.
  - by rewrite !(process_file_intact _ _ _ lines).
  - by rewrite (process_file_intact _ _ _ lines).
Qed.

End BatchingClaim.

Lemma batch_size_has_no_effect_witness :
  let p := mkProcessor [] 0 0 None (Some "translations") ∅
             {[ "en" := "english"; "fr" := "french" ]} in
  read_dump Sample.dump_world ["latest-lexemes.json.bz2"]
    = Ok (Sample.dump_lines, false)
  ∧ @process_file Sample.library Sample.metadata p Sample.dump_world
      ["latest-lexemes.json.bz2"] 1
    = @process_file Sample.library Sample.metadata p Sample.dump_world
        ["latest-lexemes.json.bz2"] 1000
  ∧ word_index
      (@process_file Sample.library Sample.metadata p Sample.dump_world
         ["latest-lexemes.json.bz2"] 1).1
    = [ (KStr "dog", PDict 2 [(KStr "en", PDict 1 [(KStr "Q1084",
           PDict 0 [(KStr "en", PStr "animal"); (KStr "fr", PStr "chien")])])]);
        (KStr "chat", PDict 2 [(KStr "fr", PDict 1 [(KStr "Q1084",
           PDict 0 [(KStr "en", PStr "cat")])])]) ].
Proof.
  intros p.
  assert (read_dump Sample.dump_world ["latest-lexemes.json.bz2"]
          = Ok (Sample.dump_lines, false)) as Hread by reflexivity.
  split; [exact Hread|].
  split.
  - exact (proj1 (@batch_size_has_no_effect Sample.library Sample.metadata
                    p _ _ _ 1%Z 1000%Z Hread)).
  - vm_compute. reflexivity.
Defined.

(** ** The entry parser *)

Lemma append_nil_l (s : string) : "" +:+ s = s.
Proof. reflexivity. Qed.

Lemma append_cons c (s t : string) : String c s +:+ t = String c (s +:+ t).
Proof. reflexivity. Qed.

Lemma rstrip_comma_split s : ∃ n, s = rstrip_comma s +:+ commas n.
Proof.
  induction s as [|c rest [n IH]]; simpl.
  - by exists 0.
  - destruct (rstrip_comma rest) as [|c' r] eqn:Hr.
    + rewrite append_nil_l in IH. case_decide as Hc.
      * subst c. exists (S n). rewrite append_nil_l. simpl. congruence.
      * exists n. rewrite append_cons, append_nil_l. congruence.
    + exists n. rewrite append_cons. congruence.
Qed.

Lemma append_comma_not_empty t : t +:+ "," ≠ "".
Proof. by destruct t. Qed.

Lemma rstrip_comma_no_trailing s t : rstrip_comma s ≠ t +:+ ",".
Proof.
  revert t. induction s as [|c rest IH]; intros t; simpl.
  - intros Heq. by apply (append_comma_not_empty t).
  - destruct (rstrip_comma rest) as [|c' r] eqn:Hr.
    + case_decide as Hc.
      * intros Heq. by apply (append_comma_not_empty t).
      * destruct t as [|c0 t]; [rewrite append_nil_l; congruence|].
        rewrite append_cons. intros [= _ Heq].
        by apply (append_comma_not_empty t).
    + destruct t as [|c0 t]; [rewrite append_nil_l; congruence|].
      rewrite append_cons. intros [= _ Heq]. by apply (IH t).
Qed.

Section EntryParser.
Context `{Library} `{Metadata}.

(** C3, as the code has it.  The text given to the decoder is the stripped
    line without any of its trailing commas (all of them go, not just
    one).  When the decoder rejects that text the line yields [{}], the
    processor is unchanged and one record is logged.  When it accepts it,
    the decoded lexeme goes to the aggregator of the mode: what the
    aggregator returns is returned, with nothing logged; when the
    aggregator raises, the error is logged in one record and the line
    yields [{}], the processor being as the aggregator left it.  In any
    other mode the line yields [None] and nothing changes.  No exception
    leaves the method. *)
Theorem line_is_cleaned_then_decoded self w line :
  let text := rstrip_comma (str_strip line) in
  (∃ n, str_strip line = text +:+ commas n)
  ∧ (∀ t, text ≠ t +:+ ",")
  ∧ match orjson_loads text with
    | None =>
        process_lines self w line
        = (PDict 0 [], (self, log_error w (MsgLineError JSONDecodeError)))
    | Some lexeme =>
        let aggregated :=
          if bool_decide (parse_type self = Some "translations")
          then Some (_process_lexeme_translations self lexeme)
          else if bool_decide (parse_type self = Some "total")
          then Some (_process_lexeme_total self lexeme)
          else None in
        match aggregated with
        | Some (Ok v, self') => process_lines self w line = (v, (self', w))
        | Some (Raise e, self') =>
            process_lines self w line
            = (PDict 0 [], (self', log_error w (MsgLineError e)))
        | None => process_lines self w line = (PNone, (self, w))
        end
    end.
Proof.
  intros text. split; [apply rstrip_comma_split|].
  split; [intros t; apply rstrip_comma_no_trailing|].
  unfold process_lines. fold text.
  destruct (orjson_loads text) as [lexeme|]; [|done].
  case_bool_decide; simpl.
  { by destruct (_process_lexeme_translations self lexeme) as [[v|e] self']. }
  case_bool_decide; simpl; [|done].
  by destruct (_process_lexeme_total self lexeme) as [[v|e] self'].
Qed.

End EntryParser.

(** C3, as the specification words it, fails: with two trailing commas
    the text left after removing one comma is rejected by the decoder, so
    the specification expects no record, but the method strips both commas
    and returns the record, which is also written to the index. *)
Lemma two_trailing_commas_are_stripped :
  let p := mkProcessor [] 0 0 None (Some "translations") ∅
             {[ "en" := "english"; "fr" := "french" ]} in
  let line := "  " +:+ Sample.line_dog +:+ ",," +:+ Sample.newline in
  Sample.loads (remove_one_comma (Sample.strip line)) = None
  ∧ (@process_lines Sample.library Sample.metadata p Sample.empty_world line).1
    = PDict 0 [(KStr "dog", PDict 0 [(KStr "en", PDict 0 [(KStr "Q1084",
        PDict 0 [(KStr "en", PStr "animal"); (KStr "fr", PStr "chien")])])])]
  ∧ word_index
      (@process_lines Sample.library Sample.metadata p Sample.empty_world line).2.1
    = [(KStr "dog", PDict 2 [(KStr "en", PDict 1 [(KStr "Q1084",
        PDict 0 [(KStr "en", PStr "animal"); (KStr "fr", PStr "chien")])])])].
Proof. vm_compute. done. Qed.

(** ** Loading an index *)

Lemma read_file_print w m p : read_file (print w m) p = read_file w p.
Proof. done. Qed.

Lemma read_file_log_error w m p : read_file (log_error w m) p = read_file w p.
Proof. done. Qed.

Section Loading.
Context `{Library} `{Metadata}.

(** C2, as the code has it.  When the file is missing, or is there but
    does not hold a JSON document, [load_index] reports the error on
    standard output and in the log and leaves the processor exactly as it
    was: the index keeps its prior contents (it is not emptied, and it is
    not partially loaded), so every lookup returns what it returned before
    the call.  No file is touched. *)
Theorem failed_load_keeps_the_index self w filepath e :
  (read_file w filepath ≫= json_load) = Raise e →
  (load_index self w filepath).1 = self
  ∧ (∀ word, get_word_info (load_index self w filepath).1 word
             = get_word_info self word)
  ∧ files (load_index self w filepath).2 = files w
  ∧ ∃ m, stdout (load_index self w filepath).2
           = stdout w ++ [MsgLoading filepath; m]
         ∧ errlog (load_index self w filepath).2 = errlog w ++ [m]
         ∧ (m = MsgIndexNotFound filepath ∨ m = MsgLoadError e).
Proof.
  intros Hfail. unfold load_index. rewrite read_file_print.
  change (c ← read_file w filepath; json_load c)
    with (read_file w filepath ≫= json_load).
  rewrite Hfail. simpl. split; [done|]. split; [done|].
  destruct e; simpl; (split; [done|]);
    eexists; (split; [by rewrite <- app_assoc|]); (split; [done|]); eauto.
Qed.

End Loading.

Lemma failed_load_keeps_the_index_witness :
  let p := mkProcessor [(KStr "dog", PDict 2 [])] 0 0 None (Some "translations") ∅ ∅ in
  (read_file Sample.empty_world ["index.json"] ≫= @json_load Sample.library)
    = Raise FileNotFoundError
  ∧ (@load_index Sample.library p Sample.empty_world ["index.json"]).1 = p.
Proof.
  intros p.
  assert ((read_file Sample.empty_world ["index.json"] ≫= @json_load Sample.library)
          = Raise FileNotFoundError) as Hfail by reflexivity.
  split; [exact Hfail|].
  exact (proj1 (@failed_load_keeps_the_index Sample.library p
                  Sample.empty_world ["index.json"] _ Hfail)).
Defined.

(** C2, as the specification words it, fails: after a load from a path
    that does not exist, and after a load from a file that is not JSON,
    the index still holds the word it held before, where the specification
    expects an empty store. *)
Lemma failed_load_does_not_empty_the_index :
  let p := mkProcessor [(KStr "dog", PDict 2 [])] 0 0 None (Some "translations") ∅ ∅ in
  let corrupt := mkWorld {[ ["index.json"] := OtherFile ]} ∅ [] [] in
  word_index (@load_index Sample.library p Sample.empty_world ["index.json"]).1
    = [(KStr "dog", PDict 2 [])]
  ∧ word_index (@load_index Sample.library p corrupt ["index.json"]).1
    = [(KStr "dog", PDict 2 [])]
  ∧ @get_word_info Sample.library
      (@load_index Sample.library p corrupt ["index.json"]).1 "Dog"
    = PDict 2 [].
Proof. vm_compute. done. Qed.

(** ** A dump that is not there *)

Lemma mkdir_parents_files w p :
  files (mkdir_parents w p).2 = files w.
Proof.
  unfold mkdir_parents. destruct (blocked w p); [done|].
  by destruct (is_file w p).
Qed.

Lemma not_a_file_unreadable w p :
  files w !! p = None →
  ∃ e, (stat w p ≫= λ _, read_dump w p) = Raise e
       ∧ (e = FileNotFoundError ∨ e = NotADirectoryError
          ∨ e = IsADirectoryError).
Proof.
  intros Hnone. unfold stat, read_dump, read_file.
  destruct (blocked w p); simpl; [eauto|].
  destruct (is_dir w p); simpl; [eauto 6|].
  unfold is_file. rewrite Hnone.
  rewrite bool_decide_eq_false_2 by (intros [? ?]; done). simpl. eauto.
Qed.

Section MissingDump.
Context `{Library} `{Metadata}.

Lemma process_file_unreadable self w file_path batch_size e :
  (stat w file_path ≫= λ _, read_dump w file_path) = Raise e →
  process_file self w file_path batch_size
  = (self, report_file_error w file_path e).
Proof.
  intros Hfail. unfold process_file.
  change (_ ← stat w file_path; read_dump w file_path)
    with (stat w file_path ≫= λ _, read_dump w file_path).
  by rewrite Hfail.
Qed.

Lemma report_file_error_spec w file_path e :
  files (report_file_error w file_path e) = files w
  ∧ dirs (report_file_error w file_path e) = dirs w
  ∧ ∃ m, stdout (report_file_error w file_path e) = stdout w ++ [m]
         ∧ errlog (report_file_error w file_path e) = errlog w ++ [m]
         ∧ (m = MsgFileNotFound file_path ∨ m = MsgFileError e).
Proof. destruct e; simpl; eauto 10. Qed.

Lemma LexemeProcessor_init_fresh target pt processor :
  LexemeProcessor_init target pt = Ok processor →
  word_index processor = [] ∧ parse_type processor = pt
  ∧ lexical_category_counts processor = ∅.
Proof.
  unfold LexemeProcessor_init.
  destruct (build_registry _ _ _); simpl; [|done]. by intros [= <-].
Qed.

Lemma set_order_nil : set_order [] = [].
Proof. apply Permutation_nil_r. apply set_order_perm. Qed.

(** C1, as the code has it.  When the dump path names no file, the run
    does not end with an error handed to the caller for it: [process_file]
    catches the failure, prints and logs one message, and [parse_dump]
    goes on and returns normally.  It can only raise what creating the
    output directory or building the registry raised.  In every case no
    file is written. *)
Theorem missing_dump_is_reported_not_raised
    w language parse_type type_output_dir file_path :
  files w !! file_path = None →
  files (parse_dump w language parse_type type_output_dir file_path).2
    = files w
  ∧ ((parse_dump w language parse_type type_output_dir file_path).1 = Ok tt
       ∧ (∃ m, m ∈ stdout (parse_dump w language parse_type
                              type_output_dir file_path).2
               ∧ m ∈ errlog (parse_dump w language parse_type
                               type_output_dir file_path).2
               ∧ (m = MsgFileNotFound file_path ∨ ∃ e, m = MsgFileError e))
     ∨ ∃ e, (parse_dump w language parse_type type_output_dir file_path).1
              = Raise e
            ∧ ((mkdir_parents w type_output_dir).1 = Raise e
               ∨ ∃ target, LexemeProcessor_init target parse_type = Raise e)).
Proof.
  intros Hnone. unfold parse_dump.
  case_bool_decide as Hmode.
  - (* total-count mode *)
    set (start := if bool_decide (language = Some "all")
                  then (None, print w MsgProcessingAll)
                  else (language, print w (MsgProcessingFor language))).
    assert (files start.2 = files w) as Hstart
      by (unfold start; by case_bool_decide).
    destruct start as [target w1]. simpl in Hstart.
    destruct (LexemeProcessor_init target parse_type) as [processor|e] eqn:Hi;
      simpl; [|split; [done|]; right; eauto].
    destruct (not_a_file_unreadable w1 file_path) as (e & Hfail & _);
      [by rewrite Hstart|].
    rewrite (process_file_unreadable _ _ _ _ e Hfail). simpl.
    destruct (report_file_error_spec w1 file_path e) as (Hf & _ & m & Ho & Hl & Hm).
    split; [congruence|]. left. split; [done|].
    exists m. rewrite Ho, Hl, !elem_of_app, !list_elem_of_singleton.
    split_and!; [by right | by right |]. destruct Hm; eauto.
  - (* translation mode *)
    pose proof (mkdir_parents_files w type_output_dir) as Hmk.
    destruct (mkdir_parents w type_output_dir) as [[[]|e] w1] eqn:Hdir;
      simpl in *; [|split; [done|]; right; eauto].
    destruct (LexemeProcessor_init language parse_type) as [processor|e] eqn:Hi;
      simpl; [|split; [done|]; right; eauto].
    apply LexemeProcessor_init_fresh in Hi as (Hidx & _ & _).
    set (w2 := print (print w1 _) MsgProcessingFile).
    destruct (not_a_file_unreadable w2 file_path) as (e & Hfail & _);
      [simpl; by rewrite Hmk|].
    rewrite (process_file_unreadable _ _ _ _ e Hfail).
    rewrite Hidx. simpl. rewrite set_order_nil. simpl.
    destruct (report_file_error_spec w2 file_path e) as (Hf & _ & m & Ho & Hl & Hm).
    split; [by rewrite Hf|]. left. split; [done|].
    exists m. simpl. rewrite Ho, Hl, !elem_of_app, !list_elem_of_singleton.
    split_and!; [left; by right | by right |]. destruct Hm; eauto.
Qed.

End MissingDump.

Lemma missing_dump_is_reported_not_raised_witness :
  files Sample.empty_world !! ["latest-lexemes.json.bz2"] = None
  ∧ files (@parse_dump Sample.library Sample.metadata Sample.empty_world None
             (Some "translations") ["out"] ["latest-lexemes.json.bz2"]).2
    = files Sample.empty_world.
Proof.
  assert (files Sample.empty_world !! ["latest-lexemes.json.bz2"] = None)
    as Hnone by reflexivity.
  split; [exact Hnone|].
  exact (proj1 (@missing_dump_is_reported_not_raised Sample.library
                  Sample.metadata Sample.empty_world None (Some "translations")
                  ["out"] ["latest-lexemes.json.bz2"] Hnone)).
Defined.

(** C1, as the specification words it, fails: with no dump file at the
    path, the driver returns normally to its caller instead of ending with
    an error; the missing file only shows as a printed and logged
    message.  (No file is written, as the specification says.) *)
Lemma missing_dump_returns_normally :
  let run := @parse_dump Sample.library Sample.metadata Sample.empty_world
               None (Some "translations") ["out"] ["latest-lexemes.json.bz2"] in
  run.1 = Ok tt
  ∧ stdout run.2
    = [ MsgWillSave ["out"; "lexeme_index_translations.json"];
        MsgProcessingFile;
        MsgFileNotFound ["latest-lexemes.json.bz2"];
        MsgFound 0 ]
  ∧ errlog run.2 = [ MsgFileNotFound ["latest-lexemes.json.bz2"] ]
  ∧ files run.2 = ∅.
Proof. vm_compute. done. Qed.

(** ** Only registry codes enter the index *)

Section KnownKeys.
Context `{Library} `{Metadata}.
Implicit Types (reg : gmap string string).

Lemma known_keys_set reg d k v :
  known_keys reg d = true → in_registry reg k = true →
  known_keys reg (dict_set k v d) = true.
Proof.
  intros Hd Hk. apply forallb_dict_set; [done|].
  intros k' Hsame. apply in_registry_str in Hk as (code & -> & Hcode).
  apply same_key_str_inv in Hsame as ->. by apply bool_decide_eq_true_2.
Qed.

Lemma known_keys_set_str reg d (code : string) v :
  known_keys reg d = true → is_Some (reg !! code) →
  known_keys reg (dict_set code v d) = true.
Proof.
  intros Hd Hcode. apply known_keys_set; [done|].
  by apply bool_decide_eq_true_2.
Qed.

Lemma known_glosses_known reg glosses acc new :
  known_keys reg acc = true → known_glosses reg glosses acc = Ok new →
  known_keys reg new = true.
Proof.
  revert acc. induction glosses as [|[code gloss] rest IH]; intros acc Hacc; simpl.
  - by intros [= <-].
  - destruct (in_registry reg code) eqn:Hcode; [|by apply IH].
    destruct (getitem gloss "value") as [v|]; simpl; [|done].
    apply IH. by apply known_keys_set.
Qed.

Lemma dict_update_known reg d new :
  known_keys reg d = true → known_keys reg new = true →
  known_keys reg (dict_update d new) = true.
Proof.
  unfold dict_update. revert d.
  induction new as [|[code v] new IH]; intros d Hd Hnew; simpl; [done|].
  simpl in Hnew. apply andb_prop in Hnew as [Hcode Hnew].
  apply IH; [|done]. by apply known_keys_set.
Qed.

Lemma collect_translations_known reg senses translations result :
  known_keys reg translations = true →
  collect_translations reg senses translations = Ok result →
  known_keys reg result = true.
Proof.
  revert translations.
  induction senses as [|sense rest IH]; intros translations Ht; simpl.
  - by intros [= <-].
  - destruct (get sense "glosses" _) as [glosses|]; simpl; [|done].
    destruct (items_of glosses) as [pairs|]; simpl; [|done].
    destruct (known_glosses reg pairs []) as [new|] eqn:Hnew; simpl; [|done].
    apply IH. apply dict_update_known; [done|].
    by apply (known_glosses_known reg pairs []).
Qed.

Lemma known_code_Some reg v code :
  known_code reg v = Ok (Some code) → v = PStr code ∧ is_Some (reg !! code).
Proof.
  destruct v; simpl; try done.
  case_bool_decide; [|done]. by intros [= <-].
Qed.

Lemma extract_translations_known reg lexeme word lang datatype translations :
  extract_translations reg lexeme = Ok (Some (word, lang, datatype, translations)) →
  is_Some (reg !! lang) ∧ known_keys reg translations = true
  ∧ truthy datatype = true ∧ anchor_language lexeme = Some (PStr lang).
Proof.
  unfold extract_translations, anchor_language.
  destruct lexeme as [| | | |f fields]; simpl; try done.
  destruct (default (PDict 0 []) (dict_get "lemmas" fields))
    as [| | | |f1 lemmas]; simpl; try done.
  1,2,3: by destruct (_ || _).
  destruct (_ || _) eqn:Hchk; [done|].
  apply orb_false_elim in Hchk as [_ Hcat]. apply negb_false_iff in Hcat.
  destruct lemmas as [|[first_lang first_lemma] more]; [done|].
  destruct first_lemma as [| | | |f2 lemma]; simpl; try done.
  destruct (default (PStr "") (dict_get "value" lemma)); simpl; try done.
  case_bool_decide; [done|].
  destruct (known_code reg _) as [[code|]|] eqn:Hcode; simpl; try done.
  apply known_code_Some in Hcode as [Hlang Hknown].
  destruct (iterate _) as [each|]; simpl; [|done].
  destruct (collect_translations reg each []) as [tr|] eqn:Htr; simpl; [|done].
  case_bool_decide; [done|]. intros [= <- <- <- <-].
  split_and!; [done| |done|by rewrite Hlang].
  by apply (collect_translations_known reg each []).
Qed.

Lemma set_item_ok reg by_cat datatype translations :
  categories_ok reg by_cat = true → known_keys reg translations = true →
  categories_ok reg (set_item by_cat datatype (PDict 0 translations)).2 = true.
Proof.
  destruct by_cat as [| | | |f cats]; try done. intros Hc Htr.
  unfold set_item. destruct (hashable datatype) as [k|]; [|done].
  simpl. by apply forallb_dict_set.
Qed.

Lemma in_item_ok reg by_lang lang body :
  languages_ok reg by_lang = true → is_Some (reg !! lang) →
  (∀ by_cat, categories_ok reg by_cat = true →
             categories_ok reg (body by_cat).2 = true) →
  languages_ok reg (in_item by_lang lang body).2 = true.
Proof.
  destruct by_lang as [| | | |[|f] langs]; try done.
  intros [Hkeys Hcats]%andb_prop Hlang Hbody. unfold in_item.
  destruct (dict_get lang langs) as [by_cat|] eqn:Hget.
  - pose proof (forallb_dict_get _ _ _ _ Hcats Hget) as Hc. simpl in Hc.
    specialize (Hbody by_cat Hc).
    destruct (body by_cat) as [r by_cat']. simpl in *.
    rewrite known_keys_set_str by done. simpl. by apply forallb_dict_set.
  - specialize (Hbody (PDict f []) eq_refl).
    destruct (body (PDict f [])) as [r by_cat']. simpl in *.
    rewrite known_keys_set_str by done. simpl. by apply forallb_dict_set.
Qed.

(** The assignment keeps the invariant, also when it raises after having
    created the missing levels. *)
Lemma index_assign_ok reg idx word lang datatype translations :
  index_ok reg idx = true → is_Some (reg !! lang) →
  known_keys reg translations = true →
  index_ok reg
    (index_assign idx word lang datatype (PDict 0 translations)).2 = true.
Proof.
  intros Hidx Hlang Htr. unfold index_assign.
  assert (languages_ok reg (default (PDict 2 []) (dict_get word idx)) = true)
    as Hby_lang.
  { destruct (dict_get word idx) as [by_lang|] eqn:Hget; [|done].
    apply (forallb_dict_get _ _ _ _ Hidx Hget). }
  pose proof (in_item_ok reg _ lang
                (λ by_cat, set_item by_cat datatype (PDict 0 translations))
                Hby_lang Hlang
                (λ c Hc, set_item_ok reg c datatype translations Hc Htr)) as Hok.
  destruct (in_item _ lang _) as [r by_lang']. simpl in *.
  by apply forallb_dict_set.
Qed.

Lemma process_lines_index_ok self w line :
  index_ok (iso_to_name self) (word_index self) = true →
  index_ok (iso_to_name self) (word_index (process_lines self w line).2.1) = true.
Proof.
  intros Hidx. unfold process_lines.
  destruct (orjson_loads _) as [lexeme|]; [|done].
  case_bool_decide.
  { unfold _process_lexeme_translations.
    destruct (extract_translations _ lexeme)
      as [[[[[word lang] datatype] tr]|]|] eqn:Hex; simpl; [|done..].
    apply extract_translations_known in Hex as (Hlang & Htr & _).
    pose proof (index_assign_ok _ _ word lang datatype tr Hidx Hlang Htr) as Hok.
    destruct (index_assign _ _ _ _ _) as [[[]|e] idx]; done. }
  case_bool_decide; [|done].
  pose proof (_process_lexeme_total_settings self lexeme) as [_ Hsame].
  destruct (_process_lexeme_total self lexeme) as [[v|e] self']; simpl in *;
    by rewrite Hsame.
Qed.

Lemma _process_batch_index_ok self w batch :
  index_ok (iso_to_name self) (word_index self) = true →
  index_ok (iso_to_name self) (word_index (_process_batch self w batch).1) = true.
Proof.
  unfold _process_batch. revert self w.
  induction batch as [|line batch IH]; intros self w Hidx; simpl; [done|].
  pose proof (process_lines_index_ok self w line Hidx) as Hok.
  pose proof (process_lines_settings self w line) as (Hreg & _).
  destruct (process_lines self w line) as [v [self' w']]. simpl in *.
  rewrite <- Hreg in *. by apply IH.
Qed.

Lemma known_keys_Forall reg d :
  known_keys reg d = true →
  Forall (λ k, in_registry reg k = true) (dict_keys d).
Proof.
  unfold known_keys, dict_keys. induction d as [|[code v] d IH]; simpl.
  - constructor.
  - intros [Hc Hd]%andb_prop. constructor; [done|by apply IH].
Qed.

Lemma index_ok_language_keys reg idx :
  index_ok reg idx = true →
  Forall (λ k, in_registry reg k = true) (language_keys idx).
Proof.
  intros Hidx. apply Forall_forall. intros code Hin.
  unfold language_keys in Hin.
  apply list_elem_of_bind in Hin as (by_lang & Hin & Hby_lang).
  apply list_elem_of_fmap in Hby_lang as ([word by_lang'] & -> & Hword).
  simpl in Hin.
  unfold index_ok in Hidx. rewrite forallb_forall in Hidx.
  specialize (Hidx _ (proj1 (list_elem_of_In _ _) Hword)). simpl in Hidx.
  destruct by_lang' as [| | | |[|f] langs]; try done.
  simpl in *. apply andb_prop in Hidx as [Hkeys Hcats].
  apply list_elem_of_bind in Hin as ([lang by_cat] & Hin & Hlang).
  simpl in Hin.
  apply elem_of_cons in Hin as [->|Hin].
  - pose proof (known_keys_Forall _ _ Hkeys) as Hall.
    rewrite Forall_forall in Hall. apply Hall.
    apply list_elem_of_fmap. by exists (lang, by_cat).
  - rewrite forallb_forall in Hcats.
    specialize (Hcats _ (proj1 (list_elem_of_In _ _) Hlang)). simpl in Hcats.
    destruct by_cat as [| | | |f' cats]; try done. simpl in Hin, Hcats.
    apply list_elem_of_bind in Hin as (glosses & Hin & Hgl).
    apply list_elem_of_fmap in Hgl as ([cat glosses'] & -> & Hcat).
    simpl in Hin. rewrite forallb_forall in Hcats.
    specialize (Hcats _ (proj1 (list_elem_of_In _ _) Hcat)). simpl in Hcats.
    destruct glosses' as [| | | |f'' gl]; try done. simpl in Hin.
    pose proof (known_keys_Forall _ _ Hcats) as Hall.
    rewrite Forall_forall in Hall. by apply Hall.
Qed.

(** A lexeme whose anchor language is a code outside the registry leaves
    the index as it is. *)
Lemma unknown_anchor_leaves_index self w line lexeme code :
  orjson_loads (rstrip_comma (str_strip line)) = Some lexeme →
  anchor_language lexeme = Some (PStr code) →
  iso_to_name self !! code = None →
  word_index (process_lines self w line).2.1 = word_index self.
Proof.
  intros Hload Hanchor Hnone. unfold process_lines. rewrite Hload.
  case_bool_decide.
  { unfold _process_lexeme_translations.
    destruct (extract_translations _ lexeme)
      as [[[[[word lang] datatype] tr]|]|] eqn:Hex; simpl; [|done..].
    apply extract_translations_known in Hex as (Hlang & _ & _ & Ha).
    rewrite Hanchor in Ha. injection Ha as ->.
    rewrite Hnone in Hlang. by destruct Hlang. }
  case_bool_decide; [|done].
  pose proof (_process_lexeme_total_settings self lexeme) as [_ Hsame].
  by destruct (_process_lexeme_total self lexeme) as [[v|e] self'].
Qed.

End KnownKeys.

Section KnownKeysClaim.
Context `{Library} `{Metadata}.

(** C5.  Starting from an index that satisfies the invariant (the empty
    index of a new processor does), a line whose anchor language is a code
    outside the registry leaves the index unchanged, the registry itself
    never changes, and after any sequence of lines every language key of
    the index, at the anchor level and at the gloss level, is a code of the
    registry (a string that the registry has as a key): nothing unknown is
    stored and filtered later. *)
Theorem only_registry_codes_enter_the_index self w lines :
  index_ok (iso_to_name self) (word_index self) = true →
  (∀ line lexeme code,
      orjson_loads (rstrip_comma (str_strip line)) = Some lexeme →
      anchor_language lexeme = Some (PStr code) →
      iso_to_name self !! code = None →
      word_index (process_lines self w line).2.1 = word_index self)
  ∧ iso_to_name (_process_batch self w lines).1 = iso_to_name self
  ∧ Forall (λ k, in_registry (iso_to_name self) k = true)
      (language_keys (word_index (_process_batch self w lines).1)).
Proof.
  intros Hidx. split_and!.
  - intros line lexeme code. apply unknown_anchor_leaves_index.
  - apply _process_batch_settings.
  - apply index_ok_language_keys. by apply _process_batch_index_ok.
Qed.

End KnownKeysClaim.

Lemma only_registry_codes_enter_the_index_witness :
  let p := mkProcessor [] 0 0 None (Some "translations") ∅
             {[ "en" := "english"; "fr" := "french" ]} in
  let lines := [Sample.line_dog; Sample.line_hund; Sample.line_chat] in
  index_ok (iso_to_name p) (word_index p) = true
  ∧ Forall (λ k, in_registry (iso_to_name p) k = true)
      (language_keys
         (word_index
            (@_process_batch Sample.library Sample.metadata p
               Sample.empty_world lines).1))
  ∧ language_keys
      (word_index
         (@_process_batch Sample.library Sample.metadata p
            Sample.empty_world lines).1)
    = [KStr "en"; KStr "en"; KStr "fr"; KStr "fr"; KStr "en"].
Proof.
  intros p lines.
  assert (index_ok (iso_to_name p) (word_index p) = true) as Hidx
    by reflexivity.
  split; [exact Hidx|]. split.
  - exact (proj2 (proj2 (@only_registry_codes_enter_the_index Sample.library
                           Sample.metadata p Sample.empty_world lines Hidx))).
  - vm_compute. reflexivity.
Defined.

(** ** The language registry *)

Section Registry.
Context `{Metadata}.

(** With a target, the loop does nothing until it meets the entry named
    like the target, and stops there. *)
Lemma build_registry_target target table reg :
  target ≠ "" →
  build_registry (Some target) table reg
  = match entry_named target table with
    | None => Ok reg
    | Some data =>
        match iso data with
        | Some code => Ok (<[code := target]> reg)
        | None => Raise KeyError
        end
    end.
Proof.
  intros Hne. induction table as [|[lang_name data] rest IH]; simpl; [done|].
  case_bool_decide as Hname; case_decide as Hname'; try congruence.
  - by injection Hname as ->.
  - by rewrite bool_decide_eq_false_2.
Qed.

(** A target language that the table lists without an ["iso"] of its own
    (one that is represented by sub-languages) makes the constructor
    raise. *)
Lemma target_without_iso_raises target data parse_type :
  target ≠ "" →
  entry_named target language_metadata = Some data → iso data = None →
  LexemeProcessor_init (Some target) parse_type = Raise KeyError.
Proof.
  intros Hne Hget Hiso. unfold LexemeProcessor_init.
  by rewrite build_registry_target, Hget, Hiso.
Qed.

End Registry.

(** C9, at the input where the code fails it.  "norwegian" is in the table
    with two sub-languages and no code of its own: the registry should
    hold "nb" and "nn", both mapped to "norwegian", but the constructor
    raises [KeyError].  A target with a code of its own gets a registry
    with that one code. *)
Theorem target_with_sub_languages_raises :
  @LexemeProcessor_init Sample.metadata (Some "norwegian") (Some "translations")
    = Raise KeyError
  ∧ iso_to_name <$> @LexemeProcessor_init Sample.metadata (Some "french")
                      (Some "translations")
    = Ok {[ "fr" := "french" ]}
  ∧ iso_to_name <$> @LexemeProcessor_init Sample.metadata None
                      (Some "translations")
    = Ok {[ "en" := "english"; "fr" := "french";
            "nb" := "norwegian"; "nn" := "norwegian" ]}.
Proof. vm_compute. done. Qed.

(** ** The category tally *)

Lemma tally_increment counts lang name lang' name' :
  tally (increment counts lang name) lang' name'
  = if bool_decide (lang' = lang ∧ name' = name)
    then S (tally counts lang name) else tally counts lang' name'.
Proof.
  unfold tally, increment.
  destruct (decide (lang' = lang)) as [->|Hl].
  - rewrite lookup_insert_eq. simpl.
    destruct (decide (name' = name)) as [->|Hn].
    + rewrite lookup_insert_eq. by rewrite bool_decide_eq_true_2.
    + rewrite lookup_insert_ne by done.
      rewrite bool_decide_eq_false_2 by (intros [_ ?]; done). done.
  - rewrite lookup_insert_ne by done.
    rewrite bool_decide_eq_false_2 by (intros [? _]; done). done.
Qed.

Section Tally.
Context `{Library} `{Metadata}.

Lemma tally_lemmas_first_known self category lemmas :
  forallb valid_lemma lemmas = true →
  tally_lemmas self category lemmas
  = Ok match first_known_language (iso_to_name self) lemmas,
             category_name_of category with
       | Some lang, Some name =>
           if bool_decide (name = "") then self
           else set_counts self
                  (increment (lexical_category_counts self) lang name)
       | _, _ => self
       end.
Proof.
  induction lemmas as [|lemma rest IH]; simpl; [done|].
  intros [Hlemma Hrest]%andb_prop.
  destruct lemma as [| | | |f fields]; try done. simpl in *.
  destruct (dict_get "language" fields) as [[| n | lang | |]|]; simpl in *;
    try done; try by apply IH.
  case_bool_decide; simpl; [|by apply IH].
  destruct (category_name_of category); [|done]. by case_bool_decide.
Qed.

(** C8.  In total-count mode, for a lexeme as the schema has it (an object
    whose lemmas are objects), and a category table whose names are not
    empty: when the lexical category is a code of the table and some lemma
    has a registry language, exactly one occurrence is added, for the
    language of the first such lemma and the name of the category, and
    every other count is as before; when the category is not a code of the
    table, or no lemma has a registry language, no count changes.  The
    word index is never touched. *)
Theorem one_count_per_lexeme self w line f fields f' lemmas :
  parse_type self = Some "total" →
  forallb (λ kv, negb (bool_decide (kv.1 = ""))) data_type_metadata = true →
  orjson_loads (rstrip_comma (str_strip line)) = Some (PDict f fields) →
  default (PDict 0 []) (dict_get "lemmas" fields) = PDict f' lemmas →
  forallb valid_lemma (dict_values lemmas) = true →
  let category := default PNone (dict_get "lexicalCategory" fields) in
  let counts := lexical_category_counts self in
  let counts' := lexical_category_counts (process_lines self w line).2.1 in
  word_index (process_lines self w line).2.1 = word_index self
  ∧ (∀ code name lang,
        category = PStr code → code ≠ "" →
        List.find (λ kv, bool_decide (kv.2 = code)) data_type_metadata
          = Some (name, code) →
        first_known_language (iso_to_name self) (dict_values lemmas)
          = Some lang →
        tally counts' lang name = S (tally counts lang name)
        ∧ ∀ lang' name', (lang', name') ≠ (lang, name) →
            tally counts' lang' name' = tally counts lang' name')
  ∧ (first_known_language (iso_to_name self) (dict_values lemmas) = None →
     counts' = counts)
  ∧ (among category (dict_values data_type_metadata) = false →
     counts' = counts).
Proof.
  intros Hmode Hnames Hload Hlemmas Hvalid category counts counts'.
  assert (process_lines self w line
          = match _process_lexeme_total self (PDict f fields) with
            | (Ok v, self') => (v, (self', w))
            | (Raise e, self') =>
                (PDict 0 [], (self', log_error w (MsgLineError e)))
            end) as Hline.
  { unfold process_lines. rewrite Hload, Hmode.
    rewrite bool_decide_eq_false_2 by done.
    by rewrite bool_decide_eq_true_2. }
  split.
  { rewrite Hline.
    pose proof (_process_lexeme_total_settings self (PDict f fields)) as [_ Hi].
    by destruct (_process_lexeme_total self (PDict f fields)) as [[v|e] self']. }
  assert (counts'
          = if negb (truthy category)
               || negb (among category (dict_values data_type_metadata))
            then counts
            else match first_known_language (iso_to_name self)
                         (dict_values lemmas),
                       category_name_of category with
                 | Some lang, Some name =>
                     if bool_decide (name = "") then counts
                     else increment counts lang name
                 | _, _ => counts
                 end) as Hcounts.
  { unfold counts'. rewrite Hline. unfold _process_lexeme_total. simpl.
    fold category. destruct (_ || _); [done|].
    rewrite Hlemmas. simpl.
    rewrite (tally_lemmas_first_known self category _ Hvalid). simpl.
    destruct (first_known_language _ _); [|done].
    destruct (category_name_of category); [|done]. by case_bool_decide. }
  split_and!.
  - intros code name lang Hcat Hcode Hfind Hfirst.
    assert (among (PStr code) (dict_values data_type_metadata) = true)
      as Hamong.
    { simpl. apply bool_decide_eq_true_2.
      apply find_some in Hfind as [Hin _].
      apply list_elem_of_fmap. exists (name, code). split; [done|].
      by apply list_elem_of_In. }
    assert (truthy (PStr code) = true) as Htruthy.
    { simpl. by rewrite bool_decide_eq_false_2. }
    assert (category_name_of (PStr code) = Some name) as Hname_of.
    { simpl. by rewrite Hfind. }
    rewrite Hcounts, Hfirst, Hcat, Hamong, Htruthy, Hname_of.
    cbn [negb orb].
    assert (name ≠ "") as Hname.
    { apply find_some in Hfind as [Hin _].
      rewrite forallb_forall in Hnames. specialize (Hnames _ Hin).
      simpl in Hnames. apply negb_true_iff in Hnames.
      by apply bool_decide_eq_false_1 in Hnames. }
    rewrite (bool_decide_eq_false_2 (name = "")) by done.
    split.
    + rewrite tally_increment. by rewrite bool_decide_eq_true_2.
    + intros lang' name' Hother. rewrite tally_increment.
      rewrite bool_decide_eq_false_2; [done|].
      intros [-> ->]. done.
  - intros Hnone. rewrite Hcounts, Hnone. by destruct (_ || _).
  - intros Hunknown. rewrite Hcounts, Hunknown.
    by rewrite orb_true_r.
Qed.

End Tally.

Lemma one_count_per_lexeme_witness :
  let p := mkProcessor [] 0 0 None (Some "total") ∅
             {[ "en" := "english"; "fr" := "french" ]} in
  let after :=
    (@process_lines Sample.library Sample.metadata p Sample.empty_world
       Sample.line_hound).2.1 in
  parse_type p = Some "total"
  ∧ forallb (λ kv, negb (bool_decide (kv.1 = ""))) Sample.data_types = true
  ∧ tally (lexical_category_counts after) "en" "nouns" = 1
  ∧ tally (lexical_category_counts after) "fr" "nouns" = 0.
Proof.
  intros p after.
  split; [reflexivity|]. split; [reflexivity|].
  edestruct (@one_count_per_lexeme Sample.library Sample.metadata p
               Sample.empty_world Sample.line_hound) as (_ & Hone & _);
    [reflexivity | reflexivity | vm_compute; reflexivity
    | vm_compute; reflexivity | vm_compute; reflexivity |].
  edestruct (Hone "Q1084" "nouns" "en") as [Hen Hother];
    [vm_compute; reflexivity | done | reflexivity | vm_compute; reflexivity |].
  split; [exact Hen|].
  unfold after. rewrite (Hother "fr" "nouns") by done. reflexivity.
Defined.

(** ** The translation aggregator *)

Lemma well_formed_dict f items :
  well_formed (PDict f items) = true →
  NoDup (key_classes items)
  ∧ ∀ k v, dict_get k items = Some v → well_formed v = true.
Proof.
  simpl. intros [Hnd Hall]%andb_prop. split.
  - by apply bool_decide_eq_true_1 in Hnd.
  - intros k v Hget. apply (forallb_dict_get _ _ _ _ Hall Hget).
Qed.

Lemma well_formed_list xs :
  well_formed (PList xs) = true → Forall (λ x, well_formed x = true) xs.
Proof.
  simpl. rewrite forallb_forall, Forall_forall.
  intros Hall x Hx. apply Hall. by apply list_elem_of_In.
Qed.

(** After [d.update(new)], a key of [new] has the value of [new]. *)
Lemma dict_update_get {V} (d new : list (key * V)) k :
  NoDup (key_classes new) →
  dict_get k (dict_update d new)
  = match dict_get k new with
    | Some v => Some v
    | None => dict_get k d
    end.
Proof.
  unfold dict_update. revert d.
  induction new as [|[k' v] new IH]; intros d Hnd; simpl; [done|].
  apply NoDup_cons in Hnd as [Hk Hnd]. rewrite IH by done.
  destruct (same_key k k') eqn:Hc.
  - assert (dict_get k new = None) as ->.
    { rewrite (dict_get_same _ k k') by done. by apply dict_get_None. }
    apply dict_get_set_same. by rewrite same_key_sym.
  - rewrite dict_get_set_other; [done|]. by rewrite same_key_sym.
Qed.

Section Glosses.
Implicit Types (reg : gmap string string).

Lemma known_glosses_get reg glosses acc :
  NoDup (key_classes glosses) → forallb (valid_gloss reg) glosses = true →
  ∃ new, known_glosses reg glosses acc = Ok new
    ∧ (NoDup (key_classes acc) → NoDup (key_classes new))
    ∧ ∀ code : string,
        dict_get code new
        = match entry_value reg glosses code with
          | Some v => Some v
          | None => dict_get code acc
          end.
Proof.
  revert acc.
  induction glosses as [|[c g] rest IH]; intros acc Hnd Hvalid; simpl.
  - exists acc. split_and!; [done..|]. intros code. unfold entry_value.
    by case_bool_decide.
  - apply NoDup_cons in Hnd as [Hc Hnd].
    simpl in Hvalid. apply andb_prop in Hvalid as [Hg Hvalid].
    apply dict_get_None in Hc. simpl in Hc.
    unfold valid_gloss in Hg. simpl in Hg.
    destruct (in_registry reg c) eqn:Hknown.
    + apply in_registry_str in Hknown as (s & -> & Hs).
      simpl in Hg. destruct g as [| | | |fg gloss]; try done.
      apply bool_decide_eq_true_1 in Hg as [v Hv]. simpl. rewrite Hv. simpl.
      destruct (IH (dict_set s v acc) Hnd Hvalid) as (new & Hnew & Hnodup & Hget).
      exists new. split_and!; [done| |].
      { intros Hacc. apply Hnodup. by apply dict_set_NoDup. }
      intros code. rewrite Hget. unfold entry_value. simpl.
      rewrite same_key_str. destruct (decide (code = s)) as [->|Hcode].
      * rewrite (bool_decide_eq_true_2 (s = s)) by done. rewrite Hc.
        rewrite bool_decide_eq_true_2 by done.
        simpl. rewrite Hv. apply dict_get_set_eq.
      * rewrite (bool_decide_eq_false_2 (code = s)) by done.
        rewrite dict_get_set_ne by done. done.
    + destruct (IH acc Hnd Hvalid) as (new & Hnew & Hnodup & Hget).
      exists new. split_and!; [done..|].
      intros code. rewrite Hget. unfold entry_value. simpl.
      destruct (same_key code c) eqn:Hcode; [|done].
      apply same_key_str_inv in Hcode as ->. simpl in Hknown.
      rewrite Hc. by rewrite Hknown.
Qed.

Lemma entry_value_gloss_value reg sense f fields fg glosses (code : string) :
  sense = PDict f fields →
  default (PDict 0 []) (dict_get "glosses" fields) = PDict fg glosses →
  entry_value reg glosses code
  = if bool_decide (is_Some (reg !! code)) then gloss_value sense code
    else None.
Proof.
  intros -> Hgl. unfold entry_value, gloss_value. case_bool_decide; [|done].
  simpl. destruct (dict_get "glosses" fields) as [g|]; simpl in *.
  - by subst g.
  - by injection Hgl as _ <-.
Qed.

Lemma collect_translations_get reg senses translations :
  Forall (λ x, well_formed x = true) senses →
  forallb (valid_sense reg) senses = true →
  ∃ result, collect_translations reg senses translations = Ok result
    ∧ ∀ code : string,
        dict_get code result
        = match (if bool_decide (is_Some (reg !! code))
                 then collected senses code else None) with
          | Some v => Some v
          | None => dict_get code translations
          end.
Proof.
  revert translations.
  induction senses as [|sense rest IH]; intros translations Hwf Hvalid; simpl.
  - exists translations. split; [done|]. intros code. by case_bool_decide.
  - apply Forall_cons in Hwf as [Hwf_sense Hwf].
    simpl in Hvalid. apply andb_prop in Hvalid as [Hsense Hvalid].
    destruct sense as [| | | |f fields]; try done. simpl in Hsense. simpl.
    destruct (default (PDict 0 []) (dict_get "glosses" fields))
      as [| | | |fg glosses] eqn:Hgl; try done. simpl.
    assert (NoDup (key_classes glosses)) as Hnd.
    { destruct (dict_get "glosses" fields) as [g|] eqn:Hg; simpl in Hgl.
      - subst g. apply well_formed_dict in Hwf_sense as [_ Hsub].
        specialize (Hsub _ _ Hg). by apply well_formed_dict in Hsub as [? _].
      - injection Hgl as _ <-. constructor. }
    destruct (known_glosses_get reg glosses [] Hnd Hsense)
      as (new & Hnew & Hnodup & Hget).
    rewrite Hnew. simpl.
    destruct (IH (dict_update translations new) Hwf Hvalid)
      as (result & Hres & Hlookup).
    exists result. split; [done|]. intros code. rewrite Hlookup.
    rewrite dict_update_get by (apply Hnodup; constructor).
    rewrite Hget.
    rewrite (entry_value_gloss_value reg (PDict f fields) f fields fg glosses)
      by done.
    case_bool_decide; [|done].
    destruct (collected rest code); [done|].
    by destruct (gloss_value (PDict f fields) code).
Qed.

Lemma index_at_default idx word lang category :
  index_at idx word lang category
  = (by_cat ← dict_get lang
                 (sub_items (default (PDict 2 []) (dict_get word idx)));
     dict_get category (sub_items by_cat)).
Proof. unfold index_at. by destruct (dict_get word idx). Qed.

Lemma category_at_default f langs (lang : string) category :
  (by_cat ← dict_get lang langs; dict_get category (sub_items by_cat))
  = dict_get category (sub_items (default (PDict f []) (dict_get lang langs))).
Proof. by destruct (dict_get lang langs). Qed.

(** The assignment at a hashable category writes exactly one place: the
    one of the keys that are the same key as the category. *)
Lemma index_assign_at reg idx word lang datatype category v :
  index_ok reg idx = true → hashable datatype = Some category →
  (index_assign idx word lang datatype v).1 = Ok tt
  ∧ index_at (index_assign idx word lang datatype v).2
      word lang category = Some v
  ∧ ∀ word' lang' category',
      ¬ (word' = word ∧ lang' = lang ∧ same_key category category' = true) →
      index_at (index_assign idx word lang datatype v).2
        word' lang' category'
      = index_at idx word' lang' category'.
Proof.
  intros Hidx Hcat.
  assert (∀ word' lang' category', word' ≠ word →
            index_at (index_assign idx word lang datatype v).2
              word' lang' category'
            = index_at idx word' lang' category') as Hword.
  { intros word' lang' category' Hw. unfold index_assign, index_at.
    destruct (in_item _ _ _) as [r by_lang]. simpl.
    by rewrite dict_get_set_ne. }
  assert (languages_ok reg (default (PDict 2 []) (dict_get word idx)) = true)
    as Hby_lang.
  { destruct (dict_get word idx) as [by_lang|] eqn:Hget; [|done].
    apply (forallb_dict_get _ _ _ _ Hidx Hget). }
  assert (∀ lang' category',
            index_at idx word lang' category'
            = (by_cat ← dict_get lang'
                 (sub_items (default (PDict 2 []) (dict_get word idx)));
               dict_get category' (sub_items by_cat))) as Hbefore
    by (intros; apply index_at_default).
  unfold index_assign in *.
  destruct (default (PDict 2 []) (dict_get word idx)) as [| | | |[|f] langs];
    try done.
  simpl in Hby_lang, Hbefore. apply andb_prop in Hby_lang as [_ Hcats].
  assert (categories_ok reg (default (PDict f []) (dict_get lang langs)) = true)
    as Hby_cat.
  { destruct (dict_get lang langs) as [by_cat|] eqn:Hget; [|done].
    apply (forallb_dict_get _ _ _ _ Hcats Hget). }
  pose proof (λ category', category_at_default f langs lang category')
    as Hcat_before.
  assert (in_item (PDict (S f) langs) lang
            (λ by_cat, set_item by_cat datatype v)
          = let '(r, by_cat') :=
              set_item (default (PDict f []) (dict_get lang langs))
                datatype v in
            (r, PDict (S f) (dict_set lang by_cat' langs))) as Hin.
  { unfold in_item. by destruct (dict_get lang langs). }
  rewrite Hin in *. clear Hin.
  destruct (default (PDict f []) (dict_get lang langs)) as [| | | |fc cats];
    try done.
  unfold set_item in *. rewrite Hcat in *.
  simpl in *. split; [done|]. split.
  - unfold index_at. rewrite dict_get_set_eq. simpl.
    rewrite dict_get_set_eq. simpl. apply dict_get_set_eq.
  - intros word' lang' category' Hother.
    destruct (decide (word' = word)) as [->|Hw]; [|by apply Hword].
    rewrite Hbefore. unfold index_at. rewrite dict_get_set_eq. simpl.
    destruct (decide (lang' = lang)) as [->|Hl].
    2: { by rewrite dict_get_set_ne. }
    rewrite dict_get_set_eq. simpl. rewrite Hcat_before.
    apply dict_get_set_other.
    destruct (same_key category category') eqn:Hsame; [|done].
    by destruct Hother.
Qed.

End Glosses.

Section TranslationClaim.
Context `{Library} `{Metadata}.

(** C4.  In translation mode, take a line that decodes to a lexeme as the
    schema has it: a non-empty lemmas object whose first lemma has a
    non-empty value and a language of the registry, a lexical category
    (any value that is true and can be a key: a non-empty string, or a
    number other than zero), an array of valid senses, and at least one
    gloss in a registry language.  After the line, the index holds, at the
    lowercased word, the anchor language and the category, a dictionary
    with exactly the collected glosses: its keys are registry codes, for a
    registry code it has the gloss of the last sense that has one, for any
    other code nothing.  Whatever was stored at that place before is
    replaced, and every other place of the index is as before.  The method
    returns that one entry. *)
Theorem valid_lexeme_is_indexed
    self w line f fields f1 first_lang f2 lemma more datatype category
    value lang senses :
  parse_type self = Some "translations" →
  index_ok (iso_to_name self) (word_index self) = true →
  orjson_loads (rstrip_comma (str_strip line)) = Some (PDict f fields) →
  dict_get "lemmas" fields
    = Some (PDict f1 ((first_lang, PDict f2 lemma) :: more)) →
  dict_get "lexicalCategory" fields = Some datatype →
  truthy datatype = true → hashable datatype = Some category →
  dict_get "value" lemma = Some (PStr value) → str_lower value ≠ "" →
  dict_get "language" lemma = Some (PStr lang) →
  is_Some (iso_to_name self !! lang) →
  default (PList []) (dict_get "senses" fields) = PList senses →
  forallb (valid_sense (iso_to_name self)) senses = true →
  (∃ code, is_Some (iso_to_name self !! code) ∧ is_Some (collected senses code)) →
  ∃ glosses,
    index_at (word_index (process_lines self w line).2.1)
      (str_lower value) lang category = Some (PDict 0 glosses)
    ∧ known_keys (iso_to_name self) glosses = true
    ∧ (∀ code : string,
          dict_get code glosses
          = if bool_decide (is_Some (iso_to_name self !! code))
            then collected senses code else None)
    ∧ (∀ word' lang' category',
          ¬ (word' = str_lower value ∧ lang' = lang
             ∧ same_key category category' = true) →
          index_at (word_index (process_lines self w line).2.1)
            word' lang' category'
          = index_at (word_index self) word' lang' category')
    ∧ (process_lines self w line).1
      = PDict 0 [(KStr (str_lower value), PDict 0 [(KStr lang,
          PDict 0 [(category, PDict 0 glosses)])])].
Proof.
  intros Hmode Hidx Hload Hlemmas Hcat Htruthy Hkey Hvalue Hword Hlang Hknown
    Hsenses Hvalid (code & Hcode & Hhas).
  pose proof (orjson_loads_dict _ _ Hload) as Hwf.
  assert (Forall (λ x, well_formed x = true) senses) as Hwf_senses.
  { destruct (dict_get "senses" fields) as [ss|] eqn:Hss; simpl in Hsenses.
    - subst ss. apply well_formed_dict in Hwf as [_ Hsub].
      apply well_formed_list. by apply (Hsub "senses").
    - injection Hsenses as <-. constructor. }
  destruct (collect_translations_get (iso_to_name self) senses []
              Hwf_senses Hvalid) as (glosses & Hcollect & Hget).
  assert (∀ code : string,
            dict_get code glosses
            = if bool_decide (is_Some (iso_to_name self !! code))
              then collected senses code else None) as Hglosses.
  { intros c. rewrite Hget. case_bool_decide; [|done].
    by destruct (collected senses c). }
  assert (glosses ≠ []) as Hne.
  { intros ->. specialize (Hglosses code).
    rewrite bool_decide_eq_true_2 in Hglosses by done.
    destruct Hhas as [v Hv]. by rewrite Hv in Hglosses. }
  assert (extract_translations (iso_to_name self) (PDict f fields)
          = Ok (Some (str_lower value, lang, datatype, glosses))) as Hex.
  { unfold extract_translations. simpl. rewrite Hlemmas, Hcat. simpl.
    rewrite Htruthy. simpl.
    rewrite Hvalue, Hlang. simpl.
    rewrite (bool_decide_eq_false_2 (str_lower value = "")) by done.
    rewrite (bool_decide_eq_true_2 (is_Some _)) by done. simpl.
    rewrite Hsenses. simpl. rewrite Hcollect. simpl.
    by rewrite bool_decide_eq_false_2. }
  destruct (index_assign_at (iso_to_name self) (word_index self)
              (str_lower value) lang datatype category (PDict 0 glosses)
              Hidx Hkey)
    as (Hok & Hat & Hother).
  assert (process_lines self w line
          = (PDict 0 [(KStr (str_lower value), PDict 0 [(KStr lang,
               PDict 0 [(category, PDict 0 glosses)])])],
             (set_word_index self
                (index_assign (word_index self) (str_lower value) lang
                   datatype (PDict 0 glosses)).2, w))) as Hline.
  { unfold process_lines. rewrite Hload, Hmode.
    rewrite bool_decide_eq_true_2 by done.
    unfold _process_lexeme_translations. rewrite Hex.
    destruct (index_assign _ _ _ _ _) as [r idx]. simpl in *. subst r.
    by rewrite Hkey. }
  exists glosses. rewrite Hline. simpl. split; [done|].
  split; [|done].
  apply (collect_translations_known (iso_to_name self) senses [] glosses);
    done.
Qed.

End TranslationClaim.

Lemma valid_lexeme_is_indexed_witness :
  let p := mkProcessor
             [(KStr "dog", PDict 2 [(KStr "en", PDict 1 [(KStr "Q1084",
                PDict 0 [(KStr "fr", PStr "toutou"); (KStr "en", PStr "pet")])])])]
             0 0 None (Some "translations") ∅
             {[ "en" := "english"; "fr" := "french" ]} in
  let after :=
    (@process_lines Sample.library Sample.metadata p Sample.empty_world
       Sample.line_dog).2.1 in
  parse_type p = Some "translations"
  ∧ index_ok (iso_to_name p) (word_index p) = true
  ∧ ∃ glosses,
      index_at (word_index after) "dog" "en" "Q1084" = Some (PDict 0 glosses)
      ∧ dict_get "en" glosses = Some (PStr "animal")
      ∧ dict_get "fr" glosses = Some (PStr "chien")
      ∧ dict_get "de" glosses = None.
Proof.
  intros p after.
  split; [reflexivity|]. split; [reflexivity|].
  edestruct (@valid_lexeme_is_indexed Sample.library Sample.metadata p
               Sample.empty_world Sample.line_dog)
    as (glosses & Hat & _ & Hglosses & _);
    [ reflexivity | reflexivity | vm_compute; reflexivity
    | vm_compute; reflexivity | vm_compute; reflexivity | reflexivity
    | reflexivity
    | vm_compute; reflexivity | done | vm_compute; reflexivity
    | by exists "english" | vm_compute; reflexivity | vm_compute; reflexivity
    | exists "en"; split; [by exists "english" | by eexists] | ].
  exists glosses. split; [exact Hat|].
  rewrite !Hglosses. split_and!; reflexivity.
Defined.

(** ** Saving and loading *)

(** Induction on a value with the hypothesis for every element of a list
    and every value of a dictionary. *)
Lemma pyval_nested_ind (P : pyval → Prop) :
  P PNone →
  (∀ n, P (PNum n)) →
  (∀ s, P (PStr s)) →
  (∀ xs, Forall P xs → P (PList xs)) →
  (∀ f items, Forall (λ kv, P kv.2) items → P (PDict f items)) →
  ∀ v, P v.
Proof.
  intros Hnone Hnum Hstr Hlist Hdict.
  fix IH 1. intros [| n | s | xs | f items].
  - exact Hnone.
  - apply Hnum.
  - apply Hstr.
  - apply Hlist. induction xs as [|x xs IHxs]; constructor; [apply IH | exact IHxs].
  - apply Hdict. induction items as [|[k x] items IHitems]; constructor;
      [apply IH | exact IHitems].
Qed.

Lemma erase_idemp v : erase (erase v) = erase v.
Proof.
  induction v as [| n | s | xs IH | f items IH] using pyval_nested_ind; simpl;
    [done | done | done | |].
  - f_equal. rewrite <- list_fmap_compose. apply Forall_fmap_ext_1.
    by eapply Forall_impl.
  - f_equal. rewrite <- list_fmap_compose. apply Forall_fmap_ext_1.
    eapply Forall_impl; [exact IH|]. intros [k x] Hx. simpl in *. by rewrite Hx.
Qed.

Lemma erase_convert v : erase (_convert_defaultdict_to_dict v) = erase v.
Proof.
  induction v as [| n | s | xs IH | f items IH] using pyval_nested_ind; simpl;
    [done..|].
  destruct f as [|f]; simpl; [done|].
  f_equal. rewrite <- list_fmap_compose. apply Forall_fmap_ext_1.
  eapply Forall_impl; [exact IH|]. intros [k x] Hx. simpl in *. by rewrite Hx.
Qed.

Lemma key_classes_fmap {V W} (g : V → W) (d : list (key * V)) :
  key_classes ((λ kv, (kv.1, g kv.2)) <$> d) = key_classes d.
Proof.
  unfold key_classes, dict_keys. f_equal. rewrite <- list_fmap_compose.
  by apply list_fmap_ext.
Qed.

Lemma well_formed_erase v : well_formed (erase v) = well_formed v.
Proof.
  induction v as [| n | s | xs IH | f items IH] using pyval_nested_ind; simpl;
    [done | done | done | |].
  - induction IH as [|x xs Hx _ IHxs]; [done|].
    rewrite fmap_cons. cbn [forallb]. rewrite Hx. f_equal. exact IHxs.
  - f_equal.
    + by rewrite key_classes_fmap.
    + induction IH as [|[k x] xs Hx _ IHxs]; [done|].
      rewrite fmap_cons. cbn [forallb]. simpl in Hx. cbn [snd]. rewrite Hx.
      f_equal. exact IHxs.
Qed.

Lemma dict_set_fresh {V} (d : list (key * V)) k v :
  key_class k ∉ key_classes d → dict_set k v d = d ++ [(k, v)].
Proof.
  unfold key_classes, dict_keys. induction d as [|[k' v'] d IH]; simpl; [done|].
  rewrite not_elem_of_cons. intros [Hne Hnin].
  unfold same_key. rewrite bool_decide_eq_false_2 by done. by rewrite IH.
Qed.

(** Assigning the items of a dictionary one by one rebuilds it. *)
Lemma foldl_dict_set {V W} (g : V → W) (items : list (key * V))
    (acc : list (key * W)) :
  NoDup (key_classes acc ++ key_classes items) →
  foldl (λ dd kv, dict_set kv.1 (g kv.2) dd) acc items
  = acc ++ ((λ kv, (kv.1, g kv.2)) <$> items).
Proof.
  unfold key_classes, dict_keys. revert acc.
  induction items as [|[k v] items IH]; intros acc Hnd; simpl.
  - by rewrite app_nil_r.
  - rewrite dict_set_fresh.
    + rewrite IH.
      * by rewrite <- app_assoc.
      * rewrite !fmap_app. simpl. rewrite <- app_assoc. done.
    + apply NoDup_app in Hnd as (_ & Hdisj & _).
      intros Hin. apply (Hdisj _ Hin). left.
Qed.

Lemma erase_rebuilt v : well_formed v = true → erase (rebuilt v) = erase v.
Proof.
  induction v as [| n | s | xs IH | f items IH] using pyval_nested_ind;
    [done..|].
  intros [Hnd Hall]%andb_prop. apply bool_decide_eq_true_1 in Hnd.
  rewrite forallb_forall in Hall. simpl.
  rewrite (foldl_dict_set rebuilt items []) by done. simpl. f_equal.
  rewrite <- list_fmap_compose. apply Forall_fmap_ext_1.
  rewrite Forall_forall in IH. apply Forall_forall. intros [k x] Hin.
  simpl. f_equal. apply (IH _ Hin).
  apply (Hall (k, x)). by apply list_elem_of_In.
Qed.

Lemma well_formed_set f d k v :
  well_formed (PDict f d) = true → well_formed v = true →
  well_formed (PDict f (dict_set k v d)) = true.
Proof.
  simpl. intros [Hnd Hall]%andb_prop Hv.
  apply bool_decide_eq_true_1 in Hnd. apply andb_true_intro. split.
  - apply bool_decide_eq_true_2. by apply dict_set_NoDup.
  - by apply forallb_dict_set.
Qed.

Lemma well_formed_factory f f' d :
  well_formed (PDict f d) = well_formed (PDict f' d).
Proof. done. Qed.

Lemma well_formed_tail f kv d :
  well_formed (PDict f (kv :: d)) = true →
  well_formed kv.2 = true ∧ well_formed (PDict f d) = true.
Proof.
  simpl. intros [Hnd Hall]%andb_prop.
  apply bool_decide_eq_true_1 in Hnd. apply NoDup_cons in Hnd as [_ Hnd].
  apply andb_prop in Hall as [Hv Hall]. split; [done|].
  by rewrite bool_decide_eq_true_2, Hall.
Qed.

Lemma getitem_well_formed obj key v :
  well_formed obj = true → getitem obj key = Ok v → well_formed v = true.
Proof.
  destruct obj as [| | | |f items]; try done. intros Hwf. simpl.
  destruct (dict_get key items) as [x|] eqn:Hget.
  - intros [= <-]. apply well_formed_dict in Hwf as [_ Hsub]. by eapply Hsub.
  - destruct f; [done|]. by intros [= <-].
Qed.

Section WellFormed.
Context `{Library} `{Metadata}.
Implicit Types (reg : gmap string string).

Lemma known_glosses_well_formed reg glosses acc new :
  well_formed (PDict 0 glosses) = true → well_formed (PDict 0 acc) = true →
  known_glosses reg glosses acc = Ok new → well_formed (PDict 0 new) = true.
Proof.
  revert acc. induction glosses as [|[code gloss] rest IH]; intros acc Hgl Hacc.
  - simpl. by intros [= <-].
  - apply well_formed_tail in Hgl as [Hgloss Hrest]. simpl in Hgloss.
    cbn [known_glosses].
    destruct (in_registry reg code); [|intros Hk; by apply (IH acc)].
    destruct (getitem gloss "value") as [v|] eqn:Hv; cbn [mbind result_bind];
      [|done].
    intros Hk. apply (IH (dict_set code v acc)); [done| |done].
    apply well_formed_set; [done|].
    by apply (getitem_well_formed gloss "value").
Qed.

Lemma dict_update_well_formed (d new : dict) :
  well_formed (PDict 0 d) = true → well_formed (PDict 0 new) = true →
  well_formed (PDict 0 (dict_update d new)) = true.
Proof.
  unfold dict_update. revert d.
  induction new as [|[k v] new IH]; intros d Hd Hnew; [done|].
  apply well_formed_tail in Hnew as [Hv Hrest].
  simpl. apply IH; [|done]. by apply well_formed_set.
Qed.

Lemma collect_translations_well_formed reg senses translations result :
  Forall (λ x, well_formed x = true) senses →
  well_formed (PDict 0 translations) = true →
  collect_translations reg senses translations = Ok result →
  well_formed (PDict 0 result) = true.
Proof.
  revert translations.
  induction senses as [|sense rest IH]; intros translations Hwf Ht; simpl.
  - by intros [= <-].
  - apply Forall_cons in Hwf as [Hsense Hwf].
    destruct sense as [| | | |f fields]; try done. simpl.
    destruct (default (PDict 0 []) (dict_get "glosses" fields))
      as [| | | |fg glosses] eqn:Hgl; try done. simpl.
    destruct (known_glosses reg glosses []) as [new|] eqn:Hnew; simpl; [|done].
    intros Hc. apply (IH (dict_update translations new)); [done| |done].
    apply dict_update_well_formed; [done|].
    apply (known_glosses_well_formed reg glosses [] new); [|done|done].
    destruct (dict_get "glosses" fields) as [g|] eqn:Hg; simpl in Hgl.
    + subst g. apply well_formed_dict in Hsense as [_ Hsub].
      rewrite (well_formed_factory 0 fg). by eapply Hsub.
    + by injection Hgl as _ <-.
Qed.

Lemma iterate_well_formed v each :
  well_formed v = true → iterate v = Ok each →
  Forall (λ x, well_formed x = true) each.
Proof.
  destruct v as [| n | s | xs | f items]; simpl; try done.
  - intros _ [= <-]. unfold chars. apply Forall_fmap. by apply Forall_true.
  - intros Hwf [= <-]. by apply well_formed_list.
  - intros _ [= <-]. apply Forall_fmap. apply Forall_true. by intros [].
Qed.

Lemma extract_translations_senses reg lexeme word lang datatype tr :
  extract_translations reg lexeme = Ok (Some (word, lang, datatype, tr)) →
  ∃ f fields each,
    lexeme = PDict f fields
    ∧ iterate (default (PList []) (dict_get "senses" fields)) = Ok each
    ∧ collect_translations reg each [] = Ok tr.
Proof.
  unfold extract_translations.
  destruct lexeme as [| | | |f fields]; simpl; try done.
  destruct (_ || _); [done|].
  destruct (items_of _) as [[|[first_lang first_lemma] more]|]; simpl;
    try done.
  destruct (get first_lemma "value" _) as [[| | value | |]|]; simpl; try done.
  destruct (get first_lemma "language" _) as [word_lang|]; simpl; [|done].
  case_bool_decide; [done|].
  destruct (known_code reg word_lang) as [[code|]|]; simpl; try done.
  destruct (iterate _) as [each|] eqn:Heach; simpl; [|done].
  destruct (collect_translations reg each []) as [t|] eqn:Ht; simpl; [|done].
  case_bool_decide; [done|]. intros [= _ _ _ <-]. eauto 10.
Qed.

Lemma extract_translations_well_formed reg lexeme word lang datatype tr :
  well_formed lexeme = true →
  extract_translations reg lexeme = Ok (Some (word, lang, datatype, tr)) →
  well_formed (PDict 0 tr) = true.
Proof.
  intros Hwf Hex.
  apply extract_translations_senses in Hex as (f & fields & each & -> & Hi & Hc).
  apply (collect_translations_well_formed reg each [] tr); [|done|done].
  apply (iterate_well_formed (default (PList []) (dict_get "senses" fields)));
    [|done].
  destruct (dict_get "senses" fields) as [ss|] eqn:Hss; [|done].
  apply well_formed_dict in Hwf as [_ Hsub]. by eapply Hsub.
Qed.

Lemma index_assign_well_formed idx word lang datatype v :
  well_formed (PDict 3 idx) = true → well_formed v = true →
  well_formed (PDict 3 (index_assign idx word lang datatype v).2) = true.
Proof.
  intros Hidx Hv. unfold index_assign.
  assert (well_formed (default (PDict 2 []) (dict_get word idx)) = true)
    as Hby_lang.
  { destruct (dict_get word idx) as [by_lang|] eqn:Hget; [|done].
    apply well_formed_dict in Hidx as [_ Hsub]. by eapply Hsub. }
  assert (∀ by_cat, well_formed by_cat = true →
            well_formed (set_item by_cat datatype v).2 = true) as Hset.
  { intros [| | | |f cats] Hc; try done. unfold set_item.
    destruct (hashable datatype); [|done]. by apply well_formed_set. }
  assert (well_formed
            (in_item (default (PDict 2 []) (dict_get word idx)) lang
               (λ by_cat, set_item by_cat datatype v)).2 = true) as Hin.
  { destruct (default (PDict 2 []) (dict_get word idx)) as [| | | |f langs];
      try done.
    unfold in_item.
    destruct (dict_get lang langs) as [by_cat|] eqn:Hget.
    - apply well_formed_dict in Hby_lang as Hsub. destruct Hsub as [_ Hsub].
      specialize (Hset by_cat (Hsub _ _ Hget)).
      destruct (set_item by_cat datatype v) as [r by_cat'].
      by apply well_formed_set.
    - destruct f as [|f]; [done|].
      specialize (Hset (PDict f []) eq_refl).
      destruct (set_item (PDict f []) datatype v) as [r by_cat'].
      by apply well_formed_set. }
  destruct (in_item _ lang _) as [r by_lang']. by apply well_formed_set.
Qed.

Lemma process_lines_well_formed self w line :
  well_formed (PDict 3 (word_index self)) = true →
  well_formed (PDict 3 (word_index (process_lines self w line).2.1)) = true.
Proof.
  intros Hidx. unfold process_lines.
  destruct (orjson_loads _) as [lexeme|] eqn:Hload; [|done].
  apply orjson_loads_dict in Hload.
  case_bool_decide.
  { unfold _process_lexeme_translations.
    destruct (extract_translations _ lexeme)
      as [[[[[word lang] datatype] tr]|]|] eqn:Hex; [|done..].
    apply extract_translations_well_formed in Hex; [|done].
    pose proof (index_assign_well_formed _ word lang datatype _ Hidx Hex) as Hok.
    destruct (index_assign _ _ _ _ _) as [[[]|e] idx]; done. }
  case_bool_decide; [|done].
  pose proof (_process_lexeme_total_settings self lexeme) as [_ Hsame].
  destruct (_process_lexeme_total self lexeme) as [[v|e] self']; simpl in *;
    by rewrite Hsame.
Qed.

Lemma _process_batch_well_formed self w batch :
  well_formed (PDict 3 (word_index self)) = true →
  well_formed (PDict 3 (word_index (_process_batch self w batch).1)) = true.
Proof.
  unfold _process_batch. revert self w.
  induction batch as [|line batch IH]; intros self w Hidx; [done|].
  simpl. pose proof (process_lines_well_formed self w line Hidx) as Hok.
  destruct (process_lines self w line) as [v [self' w']]. by apply IH.
Qed.

End WellFormed.

Lemma dict_get_fmap {V W} (g : V → W) (d : list (key * V)) k :
  dict_get k ((λ kv, (kv.1, g kv.2)) <$> d) = g <$> dict_get k d.
Proof.
  induction d as [|[k' v] d IH]; simpl; [done|]. by destruct (same_key k k').
Qed.

Lemma ancestors_proper p q : q ∈ ancestors p → q ≠ p.
Proof.
  unfold ancestors. intros Hin.
  apply list_elem_of_fmap in Hin as (n & -> & Hn).
  apply elem_of_seq in Hn. intros Heq.
  apply (f_equal length) in Heq. rewrite length_take in Heq. lia.
Qed.

Lemma blocked_insert files0 dirs0 out err p c :
  blocked (mkWorld (<[p := c]> files0) dirs0 out err) p
  = blocked (mkWorld files0 dirs0 out err) p.
Proof.
  unfold blocked. apply eq_true_iff_eq.
  rewrite !existsb_exists. split.
  - intros (q & Hq & Hfile). exists q. split; [done|].
    unfold is_file in *. simpl in *.
    rewrite lookup_insert_ne in Hfile; [done|].
    intros <-. apply list_elem_of_In in Hq. by apply ancestors_proper in Hq.
  - intros (q & Hq & Hfile). exists q. split; [done|].
    unfold is_file in *. simpl in *.
    rewrite lookup_insert_ne; [done|].
    intros <-. apply list_elem_of_In in Hq. by apply ancestors_proper in Hq.
Qed.

(** ** JSON documents *)

Lemma forallb_Forall {A} (f : A → bool) (l : list A) :
  forallb f l = true ↔ Forall (λ x, f x = true) l.
Proof.
  rewrite forallb_forall, Forall_forall.
  split; intros Hall x Hx; apply Hall; by apply list_elem_of_In.
Qed.

Lemma dict_set_Forall {V} (P : key * V → Prop) (d : list (key * V)) k v :
  Forall P d → (∀ k', same_key k k' = true → P (k', v)) →
  Forall P (dict_set k v d).
Proof.
  intros Hd Hkv. induction Hd as [|[k' v'] d Hhd Hd IH]; simpl.
  - constructor; [|constructor]. apply Hkv, same_key_refl.
  - destruct (same_key k k') eqn:Hk; constructor; auto.
Qed.

Lemma dict_set_Forall_str {V} (P : key * V → Prop) (d : list (key * V))
    (s : string) v :
  Forall P d → P (KStr s, v) → Forall P (dict_set s v d).
Proof.
  intros Hd Hv. apply dict_set_Forall; [done|].
  by intros k' ->%same_key_str_inv.
Qed.

Lemma foldl_ext_Forall {A B} (f g : A → B → A) (l : list B) (a : A) :
  Forall (λ x, ∀ a, f a x = g a x) l → foldl f a l = foldl g a l.
Proof.
  intros Hl. revert a. induction Hl as [|x l Hx _ IH]; intros a; simpl; [done|].
  by rewrite Hx, IH.
Qed.

Section JsonDocuments.
Context `{Library}.

Lemma json_of_dict f items : json_of (PDict f items) = PDict 0 (json_items [] items).
Proof. done. Qed.

Lemma json_items_Forall (P : key * pyval → Prop) doc items :
  Forall P doc →
  Forall (λ kv, P (KStr (key_text kv.1), json_of kv.2)) items →
  Forall P (json_items doc items).
Proof.
  unfold json_items. intros Hdoc Hitems. revert doc Hdoc.
  induction Hitems as [|[k v] items Hkv _ IH]; intros doc Hdoc; simpl; [done|].
  apply IH. by apply dict_set_Forall_str.
Qed.

Lemma json_items_NoDup doc items :
  NoDup (key_classes doc) → NoDup (key_classes (json_items doc items)).
Proof.
  unfold json_items. revert doc.
  induction items as [|[k v] items IH]; intros doc Hdoc; simpl; [done|].
  apply IH. by apply dict_set_NoDup.
Qed.

(** What is written is a document: plain dictionaries with distinct keys
    that are strings. *)
Lemma json_of_document v :
  well_formed (json_of v) = true
  ∧ str_keys (json_of v) = true
  ∧ erase (json_of v) = json_of v.
Proof.
  induction v as [| n | s | xs IH | f items IH] using pyval_nested_ind;
    [done | done | done | |].
  - cbn [json_of well_formed str_keys erase]. split_and!.
    + apply forallb_Forall, Forall_fmap.
      eapply Forall_impl; [exact IH|]. by intros x (? & _).
    + apply forallb_Forall, Forall_fmap.
      eapply Forall_impl; [exact IH|]. by intros x (_ & ? & _).
    + f_equal. rewrite <- list_fmap_compose. apply Forall_fmap_ext_1.
      eapply Forall_impl; [exact IH|]. by intros x (_ & _ & ?).
  - rewrite json_of_dict.
    assert (Forall (λ kv : key * pyval,
                      is_str kv.1 = true
                      ∧ well_formed kv.2 = true ∧ str_keys kv.2 = true
                      ∧ erase kv.2 = kv.2) (json_items [] items)) as Hall.
    { apply json_items_Forall; [constructor|].
      eapply Forall_impl; [exact IH|]. by intros [k x] ?. }
    cbn [well_formed str_keys erase]. split_and!.
    + apply andb_true_intro. split.
      * apply bool_decide_eq_true_2, json_items_NoDup. constructor.
      * apply forallb_Forall. eapply Forall_impl; [exact Hall|].
        by intros kv (_ & ? & _).
    + apply forallb_Forall. eapply Forall_impl; [exact Hall|].
      intros kv (Hk & _ & Hv & _). by rewrite Hk, Hv.
    + f_equal. rewrite <- (list_fmap_id (json_items [] items)) at 2.
      apply Forall_fmap_ext_1. eapply Forall_impl; [exact Hall|].
      intros [k x] (_ & _ & _ & Hx). simpl in *. by rewrite Hx.
Qed.

(** The document of a dictionary whose keys are strings has its items. *)
Lemma json_items_str doc items :
  Forall (λ kv : key * pyval, is_str kv.1 = true) items →
  NoDup (key_classes doc ++ key_classes items) →
  json_items doc items = doc ++ ((λ kv, (kv.1, json_of kv.2)) <$> items).
Proof.
  intros Hstr Hnd. rewrite <- (foldl_dict_set json_of) by done.
  unfold json_items. apply foldl_ext_Forall.
  eapply Forall_impl; [exact Hstr|]. intros [[|s|n] v] Hk doc'; done.
Qed.

(** A value with distinct keys that are strings is written as it is. *)
Lemma json_of_str_keys v :
  well_formed v = true → str_keys v = true → json_of v = erase v.
Proof.
  induction v as [| n | s | xs IH | f items IH] using pyval_nested_ind;
    [done | done | done | |].
  - cbn [well_formed str_keys json_of erase].
    rewrite !forallb_Forall. intros Hwf Hkeys. f_equal.
    apply Forall_fmap_ext_1.
    induction IH as [|x xs Hx _ IHxs]; [constructor|].
    apply Forall_cons in Hwf as [? ?], Hkeys as [? ?]. constructor; auto.
  - cbn [well_formed str_keys erase]. rewrite json_of_dict.
    intros [Hnd Hwf]%andb_prop Hkeys.
    apply bool_decide_eq_true_1 in Hnd.
    rewrite forallb_Forall in Hwf. rewrite forallb_Forall in Hkeys.
    rewrite json_items_str; [|by eapply Forall_impl;
      [exact Hkeys|]; intros kv [? _]%andb_prop|done].
    simpl. f_equal. apply Forall_fmap_ext_1.
    induction IH as [|[k x] items Hx _ IHitems]; [constructor|].
    apply NoDup_cons in Hnd as [_ Hnd].
    apply Forall_cons in Hwf as [? ?], Hkeys as [[_ ?]%andb_prop ?].
    constructor; [|by apply IHitems]. simpl in *. f_equal. auto.
Qed.

Lemma json_of_idemp v : json_of (json_of v) = json_of v.
Proof.
  destruct (json_of_document v) as (Hwf & Hkeys & Herase).
  by rewrite json_of_str_keys.
Qed.

Lemma json_of_convert v : json_of (_convert_defaultdict_to_dict v) = json_of v.
Proof.
  induction v as [| n | s | xs IH | f items IH] using pyval_nested_ind;
    [done..|].
  destruct f as [|f]; [done|].
  cbn [_convert_defaultdict_to_dict]. rewrite !json_of_dict. f_equal.
  unfold json_items. rewrite foldl_fmap. apply foldl_ext_Forall.
  eapply Forall_impl; [exact IH|]. intros [k x] Hx doc. simpl in *.
  by rewrite Hx.
Qed.

Lemma str_keys_get f items k v :
  str_keys (PDict f items) = true → dict_get k items = Some v →
  str_keys v = true.
Proof.
  simpl. intros Hall Hget.
  apply dict_get_Some_elem in Hget as (k' & _ & Hin).
  rewrite forallb_forall in Hall.
  specialize (Hall (k', v) (proj1 (list_elem_of_In _ _) Hin)).
  by apply andb_prop in Hall as [_ ?].
Qed.

Lemma str_keys_set f d (s : string) v :
  str_keys (PDict f d) = true → str_keys v = true →
  str_keys (PDict f (dict_set s v d)) = true.
Proof.
  simpl. intros Hd Hv. apply forallb_dict_set; [done|].
  intros k' ->%same_key_str_inv. done.
Qed.

Lemma str_keys_tail f kv d :
  str_keys (PDict f (kv :: d)) = true →
  is_str kv.1 = true ∧ str_keys kv.2 = true ∧ str_keys (PDict f d) = true.
Proof. simpl. by intros [[? ?]%andb_prop ?]%andb_prop. Qed.

Lemma getitem_str_keys obj key v :
  str_keys obj = true → getitem obj key = Ok v → str_keys v = true.
Proof.
  destruct obj as [| | | |f items]; try done. intros Hkeys. simpl.
  destruct (dict_get key items) as [x|] eqn:Hget.
  - intros [= <-]. by eapply str_keys_get.
  - destruct f; [done|]. by intros [= <-].
Qed.

End JsonDocuments.

(** ** Keys of the index that are strings *)

Section StringKeys.
Context `{Library} `{Metadata}.
Implicit Types (reg : gmap string string).

Lemma known_glosses_str_keys reg glosses acc new :
  str_keys (PDict 0 glosses) = true → str_keys (PDict 0 acc) = true →
  known_glosses reg glosses acc = Ok new → str_keys (PDict 0 new) = true.
Proof.
  revert acc. induction glosses as [|[code gloss] rest IH]; intros acc Hgl Hacc.
  - simpl. by intros [= <-].
  - apply str_keys_tail in Hgl as (Hcode & Hgloss & Hrest). simpl in *.
    destruct (in_registry reg code) eqn:Hknown; [|intros Hk; by apply (IH acc)].
    apply in_registry_str in Hknown as (s & -> & _).
    destruct (getitem gloss "value") as [v|] eqn:Hv; cbn [mbind result_bind];
      [|done].
    intros Hk. apply (IH (dict_set s v acc)); [done| |done].
    apply (str_keys_set 0); [done|].
    by apply (getitem_str_keys gloss "value").
Qed.

Lemma dict_update_str_keys (d new : dict) :
  str_keys (PDict 0 d) = true → str_keys (PDict 0 new) = true →
  str_keys (PDict 0 (dict_update d new)) = true.
Proof.
  unfold dict_update. revert d.
  induction new as [|[k v] new IH]; intros d Hd Hnew; [done|].
  apply str_keys_tail in Hnew as (Hk & Hv & Hrest).
  destruct k as [|s|n]; try done.
  simpl. apply IH; [|done]. by apply (str_keys_set 0).
Qed.

Lemma collect_translations_str_keys reg senses translations result :
  Forall (λ x, str_keys x = true) senses →
  str_keys (PDict 0 translations) = true →
  collect_translations reg senses translations = Ok result →
  str_keys (PDict 0 result) = true.
Proof.
  revert translations.
  induction senses as [|sense rest IH]; intros translations Hkeys Ht; simpl.
  - by intros [= <-].
  - apply Forall_cons in Hkeys as [Hsense Hkeys].
    destruct sense as [| | | |f fields]; try done. simpl.
    destruct (default (PDict 0 []) (dict_get "glosses" fields))
      as [| | | |fg glosses] eqn:Hgl; try done. simpl.
    destruct (known_glosses reg glosses []) as [new|] eqn:Hnew; simpl; [|done].
    intros Hc. apply (IH (dict_update translations new)); [done| |done].
    apply dict_update_str_keys; [done|].
    apply (known_glosses_str_keys reg glosses [] new); [|done|done].
    destruct (dict_get "glosses" fields) as [g|] eqn:Hg; simpl in Hgl.
    + subst g. change (str_keys (PDict fg glosses) = true).
      by apply (str_keys_get f fields "glosses").
    + by injection Hgl as _ <-.
Qed.

Lemma iterate_str_keys v each :
  str_keys v = true → iterate v = Ok each →
  Forall (λ x, str_keys x = true) each.
Proof.
  destruct v as [| n | s | xs | f items]; simpl; try done.
  - intros _ [= <-]. unfold chars. apply Forall_fmap. by apply Forall_true.
  - intros Hkeys [= <-]. by apply forallb_Forall.
  - intros _ [= <-]. apply Forall_fmap. apply Forall_true. by intros [].
Qed.

Lemma extract_translations_str_keys reg lexeme word lang datatype tr :
  str_keys lexeme = true →
  extract_translations reg lexeme = Ok (Some (word, lang, datatype, tr)) →
  str_keys (PDict 0 tr) = true.
Proof.
  intros Hkeys Hex.
  apply extract_translations_senses in Hex as (f & fields & each & -> & Hi & Hc).
  apply (collect_translations_str_keys reg each [] tr); [|done|done].
  apply (iterate_str_keys (default (PList []) (dict_get "senses" fields)));
    [|done].
  destruct (dict_get "senses" fields) as [ss|] eqn:Hss; [|done].
  by apply (str_keys_get f fields "senses").
Qed.

Lemma index_assign_string_keyed idx word lang datatype v :
  string_keyed idx = true → str_keys v = true →
  string_keyed (index_assign idx word lang datatype v).2 = true.
Proof.
  intros Hidx Hv. unfold index_assign.
  set (languages_keyed := λ by_lang : key * pyval,
         is_str by_lang.1
         && match by_lang.2 with
            | PDict _ cats => forallb (λ by_cat, str_keys by_cat.2) cats
            | _ => false
            end).
  set (word_keyed := λ by_word : pyval,
         match by_word with
         | PDict _ langs => forallb languages_keyed langs
         | _ => false
         end).
  assert (word_keyed (default (PDict 2 []) (dict_get word idx)) = true)
    as Hby_lang.
  { destruct (dict_get word idx) as [by_lang|] eqn:Hget; [|done].
    apply dict_get_Some_elem in Hget as (k' & _ & Hin).
    unfold string_keyed in Hidx. rewrite forallb_forall in Hidx.
    specialize (Hidx _ (proj1 (list_elem_of_In _ _) Hin)).
    by apply andb_prop in Hidx as [_ ?]. }
  assert (word_keyed
            (in_item (default (PDict 2 []) (dict_get word idx)) lang
               (λ by_cat, set_item by_cat datatype v)).2 = true) as Hin.
  { destruct (default (PDict 2 []) (dict_get word idx)) as [| | | |f langs];
      try done.
    unfold in_item. simpl in Hby_lang.
    assert (∀ by_cat,
              match by_cat with
              | PDict _ cats => forallb (λ by_cat, str_keys by_cat.2) cats
              | _ => false
              end = true →
              word_keyed
                (let '(r, child') := set_item by_cat datatype v in
                 (r, PDict f (dict_set lang child' langs))).2 = true) as Hset.
    { intros [| | | |fc cats] Hc; try done. unfold set_item.
      destruct (hashable datatype) as [k|]; simpl.
      - apply forallb_dict_set; [done|]. intros k' ->%same_key_str_inv.
        unfold languages_keyed. simpl. by apply forallb_dict_set.
      - apply forallb_dict_set; [done|]. by intros k' ->%same_key_str_inv. }
    destruct (dict_get lang langs) as [by_cat|] eqn:Hget.
    - apply Hset. apply dict_get_Some_elem in Hget as (k' & _ & Hin).
      rewrite forallb_forall in Hby_lang.
      specialize (Hby_lang _ (proj1 (list_elem_of_In _ _) Hin)).
      by apply andb_prop in Hby_lang as [_ ?].
    - destruct f as [|f]; [done|]. by apply Hset. }
  destruct (in_item _ lang _) as [r by_lang']. simpl in *.
  apply forallb_dict_set; [done|]. intros k' ->%same_key_str_inv.
  simpl. by destruct by_lang'.
Qed.

Lemma process_lines_string_keyed self w line :
  string_keyed (word_index self) = true →
  string_keyed (word_index (process_lines self w line).2.1) = true.
Proof.
  intros Hidx. unfold process_lines.
  destruct (orjson_loads _) as [lexeme|] eqn:Hload; [|done].
  apply orjson_loads_keys in Hload.
  case_bool_decide.
  { unfold _process_lexeme_translations.
    destruct (extract_translations _ lexeme)
      as [[[[[word lang] datatype] tr]|]|] eqn:Hex; [|done..].
    apply extract_translations_str_keys in Hex; [|done].
    pose proof (index_assign_string_keyed _ word lang datatype _ Hidx Hex) as Hok.
    destruct (index_assign _ _ _ _ _) as [[[]|e] idx]; done. }
  case_bool_decide; [|done].
  pose proof (_process_lexeme_total_settings self lexeme) as [_ Hsame].
  destruct (_process_lexeme_total self lexeme) as [[v|e] self']; simpl in *;
    by rewrite Hsame.
Qed.

Lemma _process_batch_string_keyed self w batch :
  string_keyed (word_index self) = true →
  string_keyed (word_index (_process_batch self w batch).1) = true.
Proof.
  unfold _process_batch. revert self w.
  induction batch as [|line batch IH]; intros self w Hidx; [done|].
  simpl. pose proof (process_lines_string_keyed self w line Hidx) as Hok.
  destruct (process_lines self w line) as [v [self' w']]. by apply IH.
Qed.

(** Below a word whose categories are strings, every key is a string. *)
Lemma string_keyed_word idx k by_lang :
  string_keyed idx = true → dict_get k idx = Some by_lang →
  string_categories by_lang = true → str_keys by_lang = true.
Proof.
  intros Hidx Hget Hcats.
  apply dict_get_Some_elem in Hget as (k' & _ & Hin).
  unfold string_keyed in Hidx. rewrite forallb_forall in Hidx.
  specialize (Hidx _ (proj1 (list_elem_of_In _ _) Hin)).
  apply andb_prop in Hidx as [_ Hlangs]. simpl in Hlangs.
  destruct by_lang as [| | | |f langs]; try done.
  unfold string_categories in Hcats. simpl in *. clear Hin.
  rewrite forallb_Forall in Hlangs. rewrite forallb_Forall in Hcats.
  apply forallb_Forall.
  induction Hlangs as [|[lang by_cat] langs Hlang _ IH]; [constructor|].
  apply Forall_cons in Hcats as [Hcat Hcats].
  constructor; [|by apply IH]. simpl in *.
  apply andb_prop in Hlang as [-> Hby_cat]. simpl.
  destruct by_cat as [| | | |fc cats]; try done. simpl in *.
  rewrite forallb_Forall in Hby_cat. rewrite forallb_Forall in Hcat.
  apply forallb_Forall.
  induction Hby_cat as [|[cat glosses] cats Hg _ IHc]; [constructor|].
  apply Forall_cons in Hcat as [Hc Hcat].
  constructor; [|by apply IHc]. simpl in *. by rewrite Hc, Hg.
Qed.

End StringKeys.

(** ** Equality of values *)

Lemma py_equal_list xs ys :
  Forall2 (λ x y, py_equal x y = true) xs ys →
  py_equal (PList xs) (PList ys) = true.
Proof.
  simpl. induction 1 as [|x y xs ys Hxy _ IH]; [done|]. by rewrite Hxy, IH.
Qed.

Lemma py_equal_dict f f' items others :
  length items = length others →
  Forall (λ kv, ∃ v', dict_get kv.1 others = Some v'
                      ∧ py_equal kv.2 v' = true) items →
  py_equal (PDict f items) (PDict f' others) = true.
Proof.
  intros Hlen Hall. simpl. apply andb_true_intro.
  split; [by apply bool_decide_eq_true_2|]. clear Hlen.
  induction Hall as [|[k v] items (v' & Hget & Hv) _ IH]; [done|].
  simpl in *. by rewrite Hget, Hv, IH.
Qed.

(** Values with the same contents are equal for [==]. *)
Lemma py_eq_equal a b :
  well_formed a = true → py_eq a b → py_equal a b = true.
Proof.
  unfold py_eq. revert b.
  induction a as [| n | s | xs IH | f items IH] using pyval_nested_ind;
    intros b Hwf Heq.
  - by destruct b.
  - destruct b; try done. injection Heq as <-. simpl.
    by apply bool_decide_eq_true_2.
  - destruct b; try done. injection Heq as <-. simpl.
    by apply bool_decide_eq_true_2.
  - destruct b as [| | |ys|]; try done. injection Heq as Heq.
    apply py_equal_list. apply well_formed_list in Hwf.
    revert ys Heq. induction IH as [|x xs Hx _ IHxs]; intros [|y ys] Heq;
      try done; try (by constructor).
    injection Heq as Hxy Heq. apply Forall_cons in Hwf as [? ?].
    constructor; auto.
  - destruct b as [| | | |f' others]; try done. injection Heq as Heq.
    apply well_formed_dict in Hwf as [Hnd Hsub].
    assert (key_classes others = key_classes items) as Hkeys.
    { rewrite <- (key_classes_fmap erase others), <- (key_classes_fmap erase items).
      by rewrite Heq. }
    apply py_equal_dict.
    { apply (f_equal length) in Heq. by rewrite !length_fmap in Heq. }
    assert (∀ k v, (k, v) ∈ items →
              ∃ v', (k, v') ∈ others ∧ erase v = erase v') as Hother.
    { clear IH Hnd Hsub Hkeys. revert others Heq.
      induction items as [|[k0 v0] items IHitems]; intros [|[k1 v1] others] Heq;
        try done.
      - intros k v Hin. by apply elem_of_nil in Hin.
      - injection Heq as -> Hv Heq. intros k v [[= -> ->]|Hin]%elem_of_cons.
        + exists v1. split; [left|done].
        + destruct (IHitems others Heq k v Hin) as (v' & ? & ?).
          exists v'. split; [by right|done]. }
    rewrite Forall_forall in IH. apply Forall_forall. intros [k v] Hin.
    destruct (Hother k v Hin) as (v' & Hin' & Hv). exists v'. simpl. split.
    + apply dict_get_elem; [by rewrite Hkeys|done].
    + apply (IH (k, v) Hin); [|done].
      apply (Hsub k). by apply dict_get_elem.
Qed.

(** ** The round trip *)

Section RoundTrip.
Context `{Library} `{Metadata}.

(** What is read back from the file of a whole index: every word with the
    document of what was below it. *)
Lemma loaded_index idx :
  NoDup (key_classes idx) →
  Forall (λ kv : key * pyval, is_str kv.1 = true) idx →
  _recursive_update []
    (json_of (json_of (_convert_defaultdict_to_dict (PDict 3 idx))))
  = Ok ((λ kv, (kv.1, rebuilt (json_of kv.2))) <$> idx).
Proof.
  intros Hnd Hstr. rewrite json_of_idemp, json_of_convert, json_of_dict.
  rewrite json_items_str by done. simpl.
  unfold _recursive_update. simpl.
  rewrite (foldl_dict_set rebuilt _ []).
  - simpl. by rewrite <- list_fmap_compose.
  - simpl. by rewrite key_classes_fmap.
Qed.

Lemma load_index_json other w filepath doc idx :
  read_file w filepath = Ok (JsonFile doc) →
  _recursive_update [] (json_of doc) = Ok idx →
  word_index (load_index other w filepath).1 = idx.
Proof.
  intros Hread Hupdate. unfold load_index. rewrite read_file_print, Hread.
  cbn [mbind result_bind json_load]. by rewrite Hupdate.
Qed.

Lemma string_keyed_words idx :
  string_keyed idx = true →
  Forall (λ kv : key * pyval, is_str kv.1 = true) idx.
Proof.
  unfold string_keyed. rewrite forallb_Forall. intros Hall.
  eapply Forall_impl; [exact Hall|]. by intros kv [? _]%andb_prop.
Qed.

(** C6, as the code has it.  Take the index that the aggregator has built
    from any lines, starting from a well-formed index whose keys, other
    than the lexical categories, are strings (the empty index of a new
    processor is one).  Saving it whole to a path that can be written
    succeeds, and a load from that path, into any processor, gives a store
    whose lookup, for every word, equals ([==]) the document of the
    original lookup: the original with every key written as its JSON text,
    so that a lexical category that is a number or a boolean comes back as
    a string.  For a word whose lexical categories are all strings the
    lookup has the contents of the original lookup, and is equal to it. *)
Theorem save_then_load_round_trips start w0 lines w filepath other :
  well_formed (PDict 3 (word_index start)) = true →
  string_keyed (word_index start) = true →
  blocked w filepath = false → is_dir w filepath = false →
  is_dir w (parent filepath) = true →
  let self := (_process_batch start w0 lines).1 in
  let saved := save_index self w filepath None in
  saved.1 = Ok tt
  ∧ ∀ word,
      py_eq (get_word_info (load_index other saved.2 filepath).1 word)
            (json_of (get_word_info self word))
      ∧ (string_categories (get_word_info self word) = true →
         py_eq (get_word_info (load_index other saved.2 filepath).1 word)
               (get_word_info self word)
         ∧ py_equal (get_word_info (load_index other saved.2 filepath).1 word)
                    (get_word_info self word) = true).
Proof.
  intros Hstart Hkeyed Hblocked Hdir Hparent self saved.
  pose proof (_process_batch_well_formed start w0 lines Hstart) as Hwf.
  pose proof (_process_batch_string_keyed start w0 lines Hkeyed) as Hkeys.
  fold self in Hwf, Hkeys.
  assert (saved
          = (Ok tt,
             mkWorld
               (<[filepath :=
                    json_dump (_convert_defaultdict_to_dict
                                 (PDict 3 (word_index self)))]> (files w))
               (dirs w) (stdout w ++ [MsgSavingComplete filepath]) (errlog w)))
    as Hsaved.
  { unfold saved, save_index, write_file. simpl.
    change (blocked (print w (MsgSavingComplete filepath)) filepath)
      with (blocked w filepath).
    change (is_dir (print w (MsgSavingComplete filepath)) filepath)
      with (is_dir w filepath).
    change (is_dir (print w (MsgSavingComplete filepath)) (parent filepath))
      with (is_dir w (parent filepath)).
    by rewrite Hblocked, Hdir, Hparent. }
  rewrite Hsaved. split; [done|]. intros word. cbn [snd].
  apply well_formed_dict in Hwf as [Hnd Hsub].
  assert (word_index
            (load_index other
               (mkWorld
                  (<[filepath :=
                       json_dump (_convert_defaultdict_to_dict
                                    (PDict 3 (word_index self)))]> (files w))
                  (dirs w) (stdout w ++ [MsgSavingComplete filepath])
                  (errlog w)) filepath).1
          = (λ kv, (kv.1, rebuilt (json_of kv.2))) <$> word_index self)
    as Hloaded.
  { apply (load_index_json _ _ _
             (json_of (_convert_defaultdict_to_dict (PDict 3 (word_index self))))).
    - unfold read_file. rewrite blocked_insert.
      change (blocked _ filepath) with (blocked w filepath).
      change (is_dir _ filepath) with (is_dir w filepath).
      rewrite Hblocked, Hdir. cbn [files]. by rewrite lookup_insert_eq.
    - apply loaded_index; [done|]. by apply string_keyed_words. }
  unfold get_word_info.
  rewrite Hloaded, (dict_get_fmap (λ v, rebuilt (json_of v))).
  destruct (dict_get (str_lower word) (word_index self)) as [v|] eqn:Hget;
    simpl; [|done].
  destruct (json_of_document v) as (Hdoc & _ & _).
  split.
  - by apply erase_rebuilt.
  - intros Hcats.
    assert (py_eq (rebuilt (json_of v)) v) as Heq.
    { unfold py_eq. rewrite erase_rebuilt by done.
      rewrite json_of_str_keys; [apply erase_idemp|by eapply Hsub|].
      by apply (string_keyed_word (word_index self) (str_lower word)). }
    split; [done|]. apply py_eq_equal; [|done].
    rewrite <- well_formed_erase, Heq, well_formed_erase. by eapply Hsub.
Qed.

End RoundTrip.

Lemma save_then_load_round_trips_witness :
  let p := mkProcessor [] 0 0 None (Some "translations") ∅
             {[ "en" := "english"; "fr" := "french" ]} in
  let lines := [Sample.line_dog; Sample.line_hund; Sample.line_chat] in
  let self := (@_process_batch Sample.library Sample.metadata p
                 Sample.empty_world lines).1 in
  let saved := @save_index Sample.library self Sample.empty_world
                 ["index.json"] None in
  well_formed (PDict 3 (word_index p)) = true
  ∧ string_keyed (word_index p) = true
  ∧ blocked Sample.empty_world ["index.json"] = false
  ∧ is_dir Sample.empty_world ["index.json"] = false
  ∧ is_dir Sample.empty_world (parent ["index.json"]) = true
  ∧ saved.1 = Ok tt
  ∧ string_categories (@get_word_info Sample.library self "Dog") = true
  ∧ py_eq (@get_word_info Sample.library
             (@load_index Sample.library p saved.2 ["index.json"]).1 "Dog")
          (PDict 2 [(KStr "en", PDict 1 [(KStr "Q1084",
             PDict 0 [(KStr "en", PStr "animal");
                      (KStr "fr", PStr "chien")])])]).
Proof.
  intros p lines self saved.
  split; [reflexivity|]. split; [reflexivity|]. split; [reflexivity|].
  split; [reflexivity|]. split; [reflexivity|].
  destruct (@save_then_load_round_trips Sample.library Sample.metadata p
              Sample.empty_world lines Sample.empty_world ["index.json"] p
              eq_refl eq_refl eq_refl eq_refl eq_refl) as [Hok Hsame].
  split; [exact Hok|].
  assert (string_categories (@get_word_info Sample.library self "Dog") = true)
    as Hcats by (vm_compute; reflexivity).
  split; [exact Hcats|].
  unfold py_eq in *. unfold saved, self in *.
  rewrite (proj1 (proj2 (Hsame "Dog") Hcats)).
  vm_compute. reflexivity.
Defined.

(** C6, as the specification words it, fails: a lexeme whose lexical
    category is the number 5 is stored below the key [5]; [json.dump]
    writes that key as the string ["5"], so after saving and loading the
    lookup of the word has the key ["5"] where the original has [5], and
    the two lookups are not equal. *)
Lemma numeric_category_does_not_round_trip :
  let p := mkProcessor [] 0 0 None (Some "translations") ∅
             {[ "en" := "english"; "fr" := "french" ]} in
  let self := (@_process_batch Sample.library Sample.metadata p
                 Sample.empty_world [Sample.line_five]).1 in
  let saved := @save_index Sample.library self Sample.empty_world
                 ["index.json"] None in
  let loaded := (@load_index Sample.library p saved.2 ["index.json"]).1 in
  saved.1 = Ok tt
  ∧ @get_word_info Sample.library self "dog"
    = PDict 2 [(KStr "en", PDict 1 [(KNum (Int 5),
        PDict 0 [(KStr "en", PStr "animal")])])]
  ∧ @get_word_info Sample.library loaded "dog"
    = PDict 2 [(KStr "en", PDict 2 [(KStr "5",
        PDict 2 [(KStr "en", PStr "animal")])])]
  ∧ py_equal (@get_word_info Sample.library loaded "dog")
             (@get_word_info Sample.library self "dog") = false.
Proof. vm_compute. done. Qed.

(** ** What the driver writes *)

Lemma index_file_name_plain parse_type :
  index_file_name parse_type ≠ "" ∧ index_file_name parse_type ≠ ".".
Proof. unfold index_file_name. split; intros Heq; discriminate Heq. Qed.

Lemma join_plain p segment :
  segment ≠ "" → segment ≠ "." → join p segment = p ++ [segment].
Proof.
  intros H1 H2. unfold join. rewrite bool_decide_eq_false_2; [done|].
  by intros [?|?].
Qed.

Lemma language_file_join type_output_dir language_name parse_type :
  language_name ≠ "" → language_name ≠ "." →
  join (join (parent (type_output_dir ++ [index_file_name parse_type]))
          language_name)
    (name (type_output_dir ++ [index_file_name parse_type]))
  = language_file type_output_dir language_name parse_type.
Proof.
  intros H1 H2. unfold parent, name, language_file.
  rewrite removelast_last, last_last.
  destruct (index_file_name_plain parse_type) as [H3 H4].
  rewrite (join_plain _ language_name), join_plain by done.
  by rewrite <- app_assoc.
Qed.

Lemma parent_language_file type_output_dir language_name parse_type :
  parent (language_file type_output_dir language_name parse_type)
  = type_output_dir ++ [language_name].
Proof.
  unfold parent, language_file.
  replace (type_output_dir ++ [language_name; index_file_name parse_type])
    with ((type_output_dir ++ [language_name]) ++ [index_file_name parse_type])
    by (by rewrite <- app_assoc).
  apply removelast_last.
Qed.

Lemma write_file_files w p c :
  (write_file w p c).1 = Ok tt ∧ files (write_file w p c).2 = <[p := c]> (files w)
  ∨ (∃ e, (write_file w p c).1 = Raise e) ∧ (write_file w p c).2 = w.
Proof.
  unfold write_file. destruct (blocked w p); [right; eauto|].
  destruct (is_dir w p); [right; eauto|].
  destruct (negb _); [right; eauto|]. by left.
Qed.

Lemma mkdir_parents_result w p :
  (∃ e, (mkdir_parents w p).1 = Raise e) ∧ (mkdir_parents w p).2 = w
  ∨ (mkdir_parents w p).1 = Ok tt.
Proof.
  unfold mkdir_parents. destruct (blocked w p); [left; eauto|].
  destruct (is_file w p); [left; eauto|]. by right.
Qed.

Section Driver.
Context `{Library} `{Metadata}.

(** [filter_index] builds the view of the language. *)
Lemma filter_index_filtered reg code entries acc :
  index_ok reg entries = true →
  NoDup (key_classes acc ++ key_classes entries) →
  filter_index code entries acc = Ok (acc ++ filtered entries code).
Proof.
  unfold key_classes, dict_keys. revert acc.
  induction entries as [|[word by_lang] rest IH]; intros acc Hok Hnd; simpl.
  - by rewrite app_nil_r.
  - simpl in Hok. apply andb_prop in Hok as [Hby_lang Hok].
    destruct by_lang as [| | | |[|f] langs]; try done. simpl.
    assert (NoDup ((key_class <$> acc.*1) ++ (key_class <$> rest.*1)))
      as Hnd'.
    { apply NoDup_app in Hnd as (Ha & Hdisj & Hr).
      apply NoDup_cons in Hr as [_ Hr]. apply NoDup_app. split_and!; [done| |done].
      intros x Hx Hx'. apply (Hdisj _ Hx). by right. }
    unfold filtered. simpl.
    destruct (dict_get code langs) as [view|] eqn:Hget; simpl.
    + rewrite dict_set_fresh.
      * rewrite IH; [by rewrite <- app_assoc|done|].
        rewrite !fmap_app. simpl. rewrite <- app_assoc. done.
      * apply NoDup_app in Hnd as (_ & Hdisj & _).
        intros Hin. apply (Hdisj _ Hin). left.
    + by apply IH.
Qed.

(** One per-language save: either it raises and writes nothing, or it
    writes the view of the language at the path of the language. *)
Lemma save_index_language self w type_output_dir parse_type code language_name :
  registry_ok (iso_to_name self) = true →
  index_ok (iso_to_name self) (word_index self) = true →
  NoDup (key_classes (word_index self)) →
  iso_to_name self !! code = Some language_name →
  let saved :=
    save_index self w (type_output_dir ++ [index_file_name parse_type])
      (Some code) in
  (saved.1 = Ok tt
   ∧ files saved.2
     = <[language_file type_output_dir language_name parse_type :=
           json_dump (PDict 0 (filtered (word_index self) code))]> (files w))
  ∨ ((∃ e, saved.1 = Raise e) ∧ files saved.2 = files w).
Proof.
  intros Hreg Hidx Hnd Hcode saved. unfold saved, save_index.
  apply bool_decide_eq_true_1 in Hreg.
  destruct (Hreg _ _ Hcode) as (Hc & Hn1 & Hn2).
  cbn [unset default]. rewrite (bool_decide_eq_false_2 (code = "")) by done.
  unfold id. rewrite Hcode.
  rewrite (filter_index_filtered (iso_to_name self) code _ []) by done.
  rewrite app_nil_l, language_file_join, parent_language_file by done.
  destruct (mkdir_parents_result w (type_output_dir ++ [language_name]))
    as [[[e He] Hw]|Hmk].
  - destruct (mkdir_parents w _) as [r w1]. simpl in *. subst.
    right. eauto.
  - pose proof (mkdir_parents_files w (type_output_dir ++ [language_name])) as Hf.
    destruct (mkdir_parents w _) as [r w1]. simpl in *. subst r.
    set (w2 := print w1 _).
    destruct (write_file_files w2
                (language_file type_output_dir language_name parse_type)
                (json_dump (PDict 0 (filtered (word_index self) code))))
      as [[Hok Hfiles]|[[e He] Hw]].
    + left. split; [done|]. rewrite Hfiles. simpl. by rewrite Hf.
    + right. split; [eauto|]. rewrite Hw. simpl. done.
Qed.

End Driver.

Lemma language_file_inj type_output_dir name1 name2 parse_type :
  language_file type_output_dir name1 parse_type
  = language_file type_output_dir name2 parse_type → name1 = name2.
Proof.
  unfold language_file. intros Heq. apply app_inv_head in Heq. congruence.
Qed.

Lemma language_file_not_index type_output_dir language_name parse_type :
  language_file type_output_dir language_name parse_type
  ≠ type_output_dir ++ [index_file_name parse_type].
Proof.
  unfold language_file. intros Heq. apply app_inv_head in Heq. congruence.
Qed.

Section Invariants.
Context `{Library} `{Metadata}.

(** What every line keeps, the whole of [process_file] keeps. *)
Lemma _process_batch_invariant (P : LexemeProcessor → Prop) self w batch :
  (∀ self w line, P self → P (process_lines self w line).2.1) →
  P self → P (_process_batch self w batch).1.
Proof.
  intros Hline. unfold _process_batch. revert self w.
  induction batch as [|line batch IH]; intros self w HP; [done|].
  simpl. specialize (Hline self w line HP).
  destruct (process_lines self w line) as [v [self' w']]. by apply IH.
Qed.

Lemma read_loop_invariant (P : LexemeProcessor → Prop)
    self w batch lines batch_size :
  (∀ self w line, P self → P (process_lines self w line).2.1) →
  (∀ self n, P self → P (set_processed_entries self n)) →
  P self → P (read_loop self w batch lines batch_size).1.1.
Proof.
  intros Hline Hentries. revert self w batch.
  induction lines as [|line rest IH]; intros self w batch HP; [done|].
  simpl. destruct (structural _); [by apply IH|].
  case_bool_decide.
  - pose proof (_process_batch_invariant P self w (batch ++ [line]) Hline HP).
    destruct (_process_batch self w (batch ++ [line])) as [self1 w1].
    apply IH. by apply Hentries.
  - apply IH. by apply Hentries.
Qed.

Lemma process_file_invariant (P : LexemeProcessor → Prop)
    self w file_path batch_size :
  (∀ self w line, P self → P (process_lines self w line).2.1) →
  (∀ self n, P self → P (set_processed_entries self n)) →
  (∀ self n, P self → P (set_unique_words self n)) →
  P self → P (process_file self w file_path batch_size).1.
Proof.
  intros Hline Hentries Hwords HP. unfold process_file.
  destruct (_ ← stat w file_path; read_dump w file_path)
    as [[lines truncated]|e]; [|done].
  assert (P (read_loop self w []
               (if String.prefix "[" (str_strip (hd "" lines))
                then tail lines else lines) batch_size).1.1) as Hloop
    by (by apply read_loop_invariant).
  assert (∀ body,
    P (read_loop self w [] body batch_size).1.1 →
    P (let '(self0, w0, batch) := read_loop self w [] body batch_size in
       if truncated then (self0, report_file_error w0 file_path StreamError)
       else
         let '(self1, w1) :=
           if bool_decide (batch = []) then (self0, w0)
           else _process_batch self0 w0 batch in
         let self2 := set_unique_words self1 (length (word_index self1)) in
         let w2 := print w1 (MsgProcessed (processed_entries self2)) in
         (self2,
          if bool_decide (parse_type self2 = Some "total")
          then print w2 (MsgTally (lexical_category_counts self2))
          else w2)).1) as Hfin.
  { intros body.
    destruct (read_loop self w [] body batch_size) as [[self0 w0] batch].
    simpl. intros HP0. destruct truncated; simpl; [done|].
    case_bool_decide; [by apply Hwords|].
    pose proof (_process_batch_invariant P self0 w0 batch Hline HP0).
    destruct (_process_batch self0 w0 batch) as [self1 w1].
    by apply Hwords. }
  destruct lines as [|first more]; [destruct truncated; [done|]|];
    by apply Hfin.
Qed.

(** Reading the dump writes no file and creates no directory. *)
Lemma _process_batch_files self w batch :
  files (_process_batch self w batch).2 = files w.
Proof.
  unfold _process_batch. revert self w.
  induction batch as [|line batch IH]; intros self w; [done|].
  simpl. pose proof (process_lines_world self w line) as (Hf & _).
  destruct (process_lines self w line) as [v [self' w']]. simpl in *.
  by rewrite IH.
Qed.

Lemma read_loop_files self w batch lines batch_size :
  files (read_loop self w batch lines batch_size).1.2 = files w.
Proof.
  revert self w batch.
  induction lines as [|line rest IH]; intros self w batch; [done|].
  simpl. destruct (structural _); [by apply IH|].
  case_bool_decide; [|by apply IH].
  pose proof (_process_batch_files self w (batch ++ [line])) as Hf.
  destruct (_process_batch self w (batch ++ [line])) as [self1 w1].
  simpl in *. by rewrite IH.
Qed.

Lemma process_file_files self w file_path batch_size :
  files (process_file self w file_path batch_size).2 = files w.
Proof.
  unfold process_file.
  destruct (_ ← stat w file_path; read_dump w file_path)
    as [[lines truncated]|e].
  2: { by destruct e. }
  assert (∀ body,
    files (let '(self0, w0, batch) := read_loop self w [] body batch_size in
       if truncated then (self0, report_file_error w0 file_path StreamError)
       else
         let '(self1, w1) :=
           if bool_decide (batch = []) then (self0, w0)
           else _process_batch self0 w0 batch in
         let self2 := set_unique_words self1 (length (word_index self1)) in
         let w2 := print w1 (MsgProcessed (processed_entries self2)) in
         (self2,
          if bool_decide (parse_type self2 = Some "total")
          then print w2 (MsgTally (lexical_category_counts self2))
          else w2)).2 = files w) as Hfin.
  { intros body. pose proof (read_loop_files self w [] body batch_size) as Hf.
    destruct (read_loop self w [] body batch_size) as [[self0 w0] batch].
    simpl in *. destruct truncated; simpl; [done|].
    case_bool_decide as Hb.
    - by case_bool_decide.
    - pose proof (_process_batch_files self0 w0 batch) as Hf'.
      destruct (_process_batch self0 w0 batch) as [self1 w1]. simpl in *.
      case_bool_decide; simpl; congruence. }
  destruct lines as [|first more]; [destruct truncated; [done|]|];
    by apply Hfin.
Qed.

Lemma collect_iso_codes_anchor reg idx iso_codes :
  index_ok reg idx = true →
  collect_iso_codes (dict_values idx) iso_codes
  = Ok (iso_codes ++ anchor_codes idx).
Proof.
  unfold anchor_codes, dict_values. revert iso_codes.
  induction idx as [|[word by_lang] idx IH]; intros iso_codes Hok; simpl.
  - by rewrite app_nil_r.
  - simpl in Hok. apply andb_prop in Hok as [Hby_lang Hok].
    destruct by_lang as [| | | |[|f] langs]; try done. simpl.
    rewrite IH by done. by rewrite <- app_assoc.
Qed.

Lemma anchor_codes_known reg idx k :
  index_ok reg idx = true → k ∈ anchor_codes idx → in_registry reg k = true.
Proof.
  intros Hok Hin. unfold anchor_codes in Hin.
  apply list_elem_of_bind in Hin as (by_lang & Hin & Hby_lang).
  apply list_elem_of_fmap in Hby_lang as ([word by_lang'] & -> & Hword).
  unfold index_ok in Hok. rewrite forallb_forall in Hok.
  specialize (Hok _ (proj1 (list_elem_of_In _ _) Hword)). simpl in *.
  destruct by_lang' as [| | | |[|f] langs]; try done.
  apply andb_prop in Hok as [Hkeys _].
  pose proof (known_keys_Forall _ _ Hkeys) as Hall.
  rewrite Forall_forall in Hall. by apply Hall.
Qed.

End Invariants.

Section LanguageFiles.
Context `{Library} `{Metadata}.

(** The index of a run: registry unchanged, keys known, dictionaries
    well formed. *)
Lemma process_file_index self w file_path batch_size :
  index_ok (iso_to_name self) (word_index self) = true →
  well_formed (PDict 3 (word_index self)) = true →
  let self' := (process_file self w file_path batch_size).1 in
  iso_to_name self' = iso_to_name self
  ∧ index_ok (iso_to_name self) (word_index self') = true
  ∧ well_formed (PDict 3 (word_index self')) = true.
Proof.
  intros Hok Hwf.
  apply (process_file_invariant
           (λ s, iso_to_name s = iso_to_name self
                 ∧ index_ok (iso_to_name self) (word_index s) = true
                 ∧ well_formed (PDict 3 (word_index s)) = true)); [| | |done].
  - intros s w' line (Hreg & Hidx & Hw).
    pose proof (process_lines_settings s w' line) as (Hreg' & _).
    split_and!.
    + congruence.
    + rewrite <- Hreg in *. by apply process_lines_index_ok.
    + by apply process_lines_well_formed.
  - by intros s n.
  - by intros s n.
Qed.

Lemma elem_of_set_of k keys : k ∈ set_of keys → k ∈ keys.
Proof.
  induction keys as [|k' keys IH]; simpl; [done|].
  intros [->|Hin]%elem_of_cons; [left|right].
  apply IH. apply list_elem_of_In, filter_In in Hin as [Hin _].
  by apply list_elem_of_In.
Qed.

Lemma elem_of_set_of_str (code : string) keys :
  KStr code ∈ set_of keys ↔ KStr code ∈ keys.
Proof.
  split; [apply elem_of_set_of|].
  induction keys as [|k keys IH]; simpl; [done|].
  intros [<-|Hin]%elem_of_cons; [left|].
  destruct (same_key code k) eqn:Hk.
  - apply same_key_str_inv in Hk as ->. left.
  - right. apply list_elem_of_In, filter_In. split.
    + by apply list_elem_of_In, IH.
    + by rewrite Hk.
Qed.

(** The loop over the codes: a path that is the file of none of them is
    left as it was; when the loop ends normally, the file of each code
    holds the view of a code of the same language name. *)
Lemma save_each_language_files self w type_output_dir parse_type codes :
  registry_ok (iso_to_name self) = true →
  index_ok (iso_to_name self) (word_index self) = true →
  NoDup (key_classes (word_index self)) →
  (∀ k, k ∈ codes → in_registry (iso_to_name self) k = true) →
  let run :=
    save_each self w (type_output_dir ++ [index_file_name parse_type]) codes in
  (∀ p,
      (∀ (code : string) language_name,
          KStr code ∈ codes → iso_to_name self !! code = Some language_name →
          p ≠ language_file type_output_dir language_name parse_type) →
      files run.2 !! p = files w !! p)
  ∧ (run.1 = Ok tt →
     ∀ code : string, KStr code ∈ codes →
       ∃ language_name (code' : string),
         iso_to_name self !! code = Some language_name
         ∧ KStr code' ∈ codes
         ∧ iso_to_name self !! code' = Some language_name
         ∧ files run.2 !! language_file type_output_dir language_name parse_type
           = Some (json_dump (PDict 0 (filtered (word_index self) code')))).
Proof.
  intros Hreg Hidx Hnd. revert w.
  induction codes as [|k rest IH]; intros w Hknown run.
  - split; [done|]. intros _ code Hin. by apply elem_of_nil in Hin.
  - assert (in_registry (iso_to_name self) k = true) as Hk
      by (apply Hknown; left).
    apply in_registry_str in Hk as (code & -> & [language_name Hname]).
    assert (∀ c, c ∈ rest → in_registry (iso_to_name self) c = true)
      as Hknown_rest by (intros c Hc; apply Hknown; by right).
    pose proof (save_index_language self w type_output_dir parse_type code
                  language_name Hreg Hidx Hnd Hname) as Hsave.
    unfold run. cbn [save_each].
    rewrite bool_decide_eq_true_2 by (by rewrite Hname).
    destruct (save_index self w _ (Some code)) as [[[]|e] w1]; simpl in Hsave.
    2: { destruct Hsave as [[? _]|[_ Hf]]; [done|]. simpl.
         split; [by rewrite Hf | done]. }
    destruct Hsave as [[_ Hf]|[[e He] _]]; [|done].
    destruct (IH w1 Hknown_rest) as [Hframe Hfiles].
    split.
    + intros p Hp. rewrite Hframe.
      * rewrite Hf. apply lookup_insert_ne. intros <-.
        apply (Hp code language_name); [left | done | done].
      * intros c n Hc Hn. apply (Hp c n); [by right | done].
    + intros Hrun c Hc. apply elem_of_cons in Hc as [[= ->]|Hc].
      * destruct (existsb (λ k', match k' with
                                  | KStr c' =>
                                      bool_decide (iso_to_name self !! c'
                                                   = Some language_name)
                                  | _ => false
                                  end) rest) eqn:Hex.
        -- apply existsb_exists in Hex as ([|c'|] & Hc' & Hn'); try done.
           apply list_elem_of_In in Hc'. apply bool_decide_eq_true_1 in Hn'.
           destruct (Hfiles Hrun c' Hc') as (n & c'' & Hn & Hc'' & Hn'' & Hfile).
           assert (n = language_name) as -> by congruence.
           exists language_name, c''. split_and!; [done | by right | done..].
        -- exists language_name, code. split_and!; [done | left | done |].
           rewrite Hframe.
           ++ rewrite Hf. apply lookup_insert_eq.
           ++ intros c' n Hc' Hn' Heq. apply language_file_inj in Heq as <-.
              apply not_true_iff_false in Hex. apply Hex.
              apply existsb_exists. exists (KStr c').
              split; [by apply list_elem_of_In|].
              by apply bool_decide_eq_true_2.
      * destruct (Hfiles Hrun c Hc) as (n & c'' & Hn & Hc'' & Hn'' & Hfile).
        exists n, c''. split_and!; [done | by right | done..].
Qed.

(** C10.  In any mode but the total count, with a registry as the
    language table gives it (no empty code, names that are path segments):
    a path that is not the language file of an anchor-language code of
    the built index holds after the run what it held before, and so does
    the announced index path, where no combined index is ever created; and
    when the run ends normally, for each anchor-language code of the built
    index the file below the directory named by its registry name holds a
    per-language view of the index, the view of a code with that name.
    The anchor-language keys of the built index are all codes of the
    registry, hence strings. *)
Theorem translation_mode_writes_language_files_only
    w language parse_type type_output_dir file_path processor :
  parse_type ≠ Some "total" →
  LexemeProcessor_init language parse_type = Ok processor →
  registry_ok (iso_to_name processor) = true →
  let index_path := type_output_dir ++ [index_file_name parse_type] in
  let reading :=
    print (print (mkdir_parents w type_output_dir).2 (MsgWillSave index_path))
      MsgProcessingFile in
  let idx := word_index (process_file processor reading file_path 1000).1 in
  let run := parse_dump w language parse_type type_output_dir file_path in
  (∀ p,
      (∀ (code : string) language_name,
          KStr code ∈ anchor_codes idx →
          iso_to_name processor !! code = Some language_name →
          p ≠ language_file type_output_dir language_name parse_type) →
      files run.2 !! p = files w !! p)
  ∧ files run.2 !! index_path = files w !! index_path
  ∧ (run.1 = Ok tt →
     ∀ code : string, KStr code ∈ anchor_codes idx →
       ∃ language_name (code' : string),
         iso_to_name processor !! code = Some language_name
         ∧ KStr code' ∈ anchor_codes idx
         ∧ iso_to_name processor !! code' = Some language_name
         ∧ files run.2 !! language_file type_output_dir language_name parse_type
           = Some (json_dump (PDict 0 (filtered idx code'))))
  ∧ Forall (λ k, in_registry (iso_to_name processor) k = true)
      (anchor_codes idx).
Proof.
  intros Hmode Hinit Hreg index_path reading idx run.
  pose proof (LexemeProcessor_init_fresh _ _ _ Hinit) as (Hempty & _ & _).
  destruct (process_file_index processor reading file_path 1000)
    as (Hreg' & Hidx & Hwf); [by rewrite Hempty..|].
  fold idx in Hidx, Hwf.
  assert (Forall (λ k, in_registry (iso_to_name processor) k = true)
            (anchor_codes idx)) as Hanchor.
  { apply Forall_forall. intros k Hk. by apply (anchor_codes_known _ idx). }
  assert ((∀ p,
      (∀ (code : string) language_name,
          KStr code ∈ anchor_codes idx →
          iso_to_name processor !! code = Some language_name →
          p ≠ language_file type_output_dir language_name parse_type) →
      files run.2 !! p = files w !! p)
    ∧ (run.1 = Ok tt →
     ∀ code : string, KStr code ∈ anchor_codes idx →
       ∃ language_name (code' : string),
         iso_to_name processor !! code = Some language_name
         ∧ KStr code' ∈ anchor_codes idx
         ∧ iso_to_name processor !! code' = Some language_name
         ∧ files run.2 !! language_file type_output_dir language_name parse_type
           = Some (json_dump (PDict 0 (filtered idx code')))))
    as [Hframe Hfiles].
  2: { split; [done|]. split; [|done]. apply Hframe.
       intros code language_name _ _ Heq. symmetry in Heq.
       by apply language_file_not_index in Heq. }
  clear Hanchor.
  pose proof (process_file_files processor reading file_path 1000) as Hfiles_read.
  pose proof (mkdir_parents_files w type_output_dir) as Hmk.
  unfold run, parse_dump. rewrite bool_decide_eq_false_2 by done.
  unfold reading, index_path in *.
  destruct (index_file_name_plain parse_type) as [Hn1 Hn2].
  change ("lexeme_index_" +:+ fmt parse_type +:+ ".json")
    with (index_file_name parse_type).
  rewrite join_plain by done.
  destruct (mkdir_parents w type_output_dir) as [[[]|e] w1].
  2: { simpl in *. split; [intros; by rewrite Hmk | done]. }
  simpl in Hmk. rewrite Hinit.
  destruct (process_file processor _ file_path 1000) as [processor' w2].
  simpl in *. subst idx.
  rewrite (collect_iso_codes_anchor (iso_to_name processor) _ []) by done.
  rewrite app_nil_l.
  set (codes := set_order (set_of (anchor_codes (word_index processor')))).
  assert (∀ code : string,
            KStr code ∈ codes ↔ KStr code ∈ anchor_codes (word_index processor'))
    as Hcodes.
  { intros code. unfold codes. rewrite (set_order_perm _).
    apply elem_of_set_of_str. }
  assert (∀ k, k ∈ codes → k ∈ anchor_codes (word_index processor'))
    as Hsub.
  { intros k. unfold codes. rewrite (set_order_perm _).
    apply elem_of_set_of. }
  rewrite <- Hreg' in *.
  destruct (save_each_language_files processor'
              (print w2 (MsgFound (length (word_index processor'))))
              type_output_dir parse_type codes Hreg Hidx)
    as [Hframe Hfiles].
  { apply andb_prop in Hwf as [Hnd _]. by apply bool_decide_eq_true_1 in Hnd. }
  { intros k Hk. apply Hsub in Hk.
    by apply (anchor_codes_known _ _ _ Hidx). }
  split.
  - intros p Hp. rewrite Hframe.
    + simpl. congruence.
    + intros code n Hcode. apply (Hp code n). by apply Hcodes.
  - intros Hrun code Hcode. apply Hcodes in Hcode.
    destruct (Hfiles Hrun code Hcode) as (n & c' & Hn & Hc' & Hn' & Hfile).
    exists n, c'. split_and!; [done | by apply Hcodes | done..].
Qed.

End LanguageFiles.

Lemma translation_mode_writes_language_files_only_witness :
  let run :=
    @parse_dump Sample.library Sample.metadata Sample.dump_world None
      (Some "translations") ["out"] ["latest-lexemes.json.bz2"] in
  Some "translations" ≠ Some "total"
  ∧ (∃ processor,
        @LexemeProcessor_init Sample.metadata None (Some "translations")
          = Ok processor
        ∧ registry_ok (iso_to_name processor) = true)
  ∧ files run.2 !! ["out"; "lexeme_index_translations.json"] = None
  ∧ run.1 = Ok tt
  ∧ files run.2 !! ["out"; "english"; "lexeme_index_translations.json"]
    = Some (JsonFile (PDict 0 [(KStr "dog", PDict 0 [(KStr "en", PDict 0 [(KStr "Q1084",
        PDict 0 [(KStr "en", PStr "animal"); (KStr "fr", PStr "chien")])])])]))
  ∧ files run.2 !! ["out"; "french"; "lexeme_index_translations.json"]
    = Some (JsonFile (PDict 0 [(KStr "chat", PDict 0 [(KStr "fr", PDict 0 [(KStr "Q1084",
        PDict 0 [(KStr "en", PStr "cat")])])])])).
Proof.
  intros run.
  assert (Some "translations" ≠ Some "total") as Hmode by done.
  split; [exact Hmode|].
  destruct (@LexemeProcessor_init Sample.metadata None (Some "translations"))
    as [processor|] eqn:Hinit; [|by vm_compute in Hinit].
  assert (registry_ok (iso_to_name processor) = true) as Hreg.
  { vm_compute in Hinit. injection Hinit as <-. vm_compute. reflexivity. }
  split; [by exists processor|].
  split.
  - exact (proj1 (proj2 (@translation_mode_writes_language_files_only
                           Sample.library Sample.metadata Sample.dump_world
                           None (Some "translations") ["out"]
                           ["latest-lexemes.json.bz2"] processor
                           Hmode Hinit Hreg))).
  - vm_compute. done.
Defined.

(** * Further properties of the code *)

(** ** The registry *)

Section RegistryContents.
Context `{Metadata}.





End RegistryContents.


(** ** The total count *)

Section TotalCount.
Context `{Library} `{Metadata}.






End TotalCount.


(** ** What the translation aggregator keeps *)

Section Kept.
Implicit Types (reg : gmap string string).




End Kept.

Section KeptClaim.
Context `{Library} `{Metadata}.



End KeptClaim.


(** ** Lexemes that leave no entry *)

Section NoEntry.
Context `{Library} `{Metadata}.




End NoEntry.



(** ** A stream that breaks *)

Section BrokenStream.
Context `{Library} `{Metadata}.





End BrokenStream.



(** ** Files and directories *)

Section Untouched.
Context `{Library} `{Metadata}.






End Untouched.

(** ** The view of a language *)



Section LanguageView.
Context `{Library} `{Metadata}.


End LanguageView.


(** ** Loading an index file *)

Section LoadingFiles.
Context `{Library} `{Metadata}.




End LoadingFiles.


